(** * A shallow embedding of the shell in [main.c]

    The repository holds one C program, a small command interpreter, in two
    copies that differ only in the prefix of their function names and of
    their diagnostics ([lsh] in [main.c], [mmsh] in the copy).  The program
    is modelled once, over the diagnostic prefix [tag]; the names are those
    of [main.c].

    Conventions of the embedding:
    - a C string is a [string]; a raw character buffer is a [string] too, and
      the C string held in it is the part before the first NUL ([c_str]);
    - a [char **] vector is a [list (option string)], [None] being [NULL];
    - [int] counters are [nat], results and statuses are [Z] (the lines
      considered are shorter than [INT_MAX], so no counter overflows);
    - a function of the program maps a process state to an [outcome];
      the two loops that need not end, the wait for a child and the loop
      of the shell itself, are bounded by a [fuel] and answer [Running]
      when it is spent;
    - the C library and the kernel are an interface, [Posix], over an
      abstract state of the operating system;
    - memory is not part of the state: [malloc] and [realloc] only succeed
      or fail, and [free] and [closedir] have no counterpart.  *)

From Stdlib Require Import String Ascii List ZArith Bool Arith Lia.
From Equations Require Import Equations.
Import ListNotations.
Local Open Scope string_scope.

Set Implicit Arguments.

(** ** Characters and strings *)

Definition NUL : ascii := "000"%char.
Definition BEL : ascii := "007"%char.
Definition TAB : ascii := "009"%char.
Definition LF : ascii := "010"%char.
Definition CR : ascii := "013"%char.
Definition SP : ascii := " "%char.
Definition DQ : ascii := "034"%char.

Definition nl : string := String LF EmptyString.
Definition dq : string := String DQ EmptyString.

Definition EXIT_SUCCESS : Z := 0.
Definition EXIT_FAILURE : Z := 1.

(** [strcmp], up to the sign of its result: zero exactly on equal strings. *)
Definition strcmp (a b : string) : Z :=
  match String.compare a b with
  | Eq => 0
  | Lt => -1
  | Gt => 1
  end%Z.

(** ** The string functions of the C library

    A pointer into a buffer is the part of the buffer from that place on;
    the end of the [string] stands for the NUL that ends the buffer. *)

(** [*s]. *)
Definition deref (s : string) : ascii :=
  match s with
  | EmptyString => NUL
  | String c _ => c
  end.

(** [*s == 0]. *)
Definition at_nul (s : string) : bool := Ascii.eqb (deref s) NUL.

(** The C string a buffer holds: its characters before the first NUL. *)
Fixpoint c_str (s : string) : string :=
  match s with
  | EmptyString => EmptyString
  | String c s' => if Ascii.eqb c NUL then EmptyString else String c (c_str s')
  end.

(** [strchr (set, c) != NULL], for [c] other than NUL. *)
Fixpoint str_mem (c : ascii) (set : string) : bool :=
  match set with
  | EmptyString => false
  | String d set' => Ascii.eqb c d || str_mem c set'
  end.

Fixpoint strspn (s accept : string) : nat :=
  match s with
  | EmptyString => 0
  | String c s' =>
      if Ascii.eqb c NUL then 0
      else if str_mem c accept then S (strspn s' accept) else 0
  end.

Fixpoint strcspn (s reject : string) : nat :=
  match s with
  | EmptyString => 0
  | String c s' =>
      if Ascii.eqb c NUL then 0
      else if str_mem c reject then 0 else S (strcspn s' reject)
  end.

(** [s + n]. *)
Fixpoint str_drop (n : nat) (s : string) : string :=
  match n, s with
  | S n', String _ s' => str_drop n' s'
  | _, _ => s
  end.

(** The [n] characters at [s]. *)
Fixpoint str_take (n : nat) (s : string) : string :=
  match n, s with
  | S n', String c s' => String c (str_take n' s')
  | _, _ => EmptyString
  end.

(** [strtok], as the C standard describes it.  The pointer it keeps between
    calls is passed explicitly: [s] is the string argument, or the saved
    pointer when that argument is [NULL].  The result is the token, [None]
    for [NULL], and the pointer saved for the next call.  The token is the
    C string left at its start once NUL has overwritten the delimiter that
    ends it. *)
Definition strtok_r (s delim : string) : option string * string :=
  if at_nul s then (None, s)
  else
    let s := str_drop (strspn s delim) s in
    if at_nul s then (None, s)
    else
      let n := strcspn s delim in
      let e := str_drop n s in
      if at_nul e then (Some (str_take n s), e)
      else (Some (str_take n s), str_drop 1 e).

Definition LSH_TOK_BUFSIZE : nat := 64.

Definition LSH_TOK_DELIM : string :=
  String SP (String TAB (String CR (String LF (String BEL EmptyString)))).

Lemma str_drop_length (n : nat) (s : string) :
  String.length (str_drop n s) = String.length s - n.
Proof.
  revert s; induction n as [|n IH]; intros [|c s]; simpl; auto.
Qed.

Lemma strcspn_pos (s reject : string) :
  at_nul s = false -> str_mem (deref s) reject = false ->
  0 < strcspn s reject <= String.length s.
Proof.
  destruct s as [|c s]; unfold at_nul; simpl; [discriminate|].
  intros -> ->. split; [lia|].
  apply le_n_S. clear c. induction s as [|c s IH]; simpl; [lia|].
  destruct (Ascii.eqb c NUL); [lia|]. destruct (str_mem c reject); lia.
Qed.

Lemma strspn_stop (s accept : string) :
  at_nul (str_drop (strspn s accept) s) = false ->
  str_mem (deref (str_drop (strspn s accept) s)) accept = false.
Proof.
  unfold at_nul. induction s as [|c s IH]; simpl; [discriminate|].
  destruct (Ascii.eqb c NUL) eqn:E; simpl; [rewrite E; discriminate|].
  destruct (str_mem c accept) eqn:M; simpl; auto.
Qed.

(** Each call of [strtok] that yields a token moves the saved pointer on. *)
Lemma strtok_r_length (s delim : string) :
  String.length (snd (strtok_r s delim))
  + match fst (strtok_r s delim) with Some _ => 1 | None => 0 end
  <= String.length s.
Proof.
  unfold strtok_r.
  destruct (at_nul s); cbn [fst snd]; [lia|].
  remember (str_drop (strspn s delim) s) as s1 eqn:Hs1.
  assert (L1 : String.length s1 <= String.length s)
    by (subst s1; rewrite str_drop_length; lia).
  destruct (at_nul s1) eqn:E1; cbn [fst snd]; [lia|].
  assert (Hn : 0 < strcspn s1 delim <= String.length s1).
  { apply strcspn_pos; [assumption|]. subst s1. now apply strspn_stop. }
  destruct (at_nul (str_drop (strcspn s1 delim) s1)); cbn [fst snd];
    rewrite ?str_drop_length; lia.
Qed.

(** ** The operating system

    Everything the program asks of the C library and of the kernel.  The
    state [OS] is abstract; each call returns its C result and the next
    state.  The three laws at the end are the guarantees of POSIX the
    claims rest on. *)

Class Posix (OS : Type) : Type := {
  (** [malloc (n)] and [realloc (p, n)]: [true] when a block is returned. *)
  sys_malloc : nat -> OS -> bool * OS;
  sys_realloc : nat -> OS -> bool * OS;
  sizeof_char_p : nat;
  (** the working directory of the process *)
  os_cwd : OS -> string;
  (** [getcwd (buf, size)]: the path stored in [buf], [None] on failure *)
  sys_getcwd : nat -> OS -> option string * OS;
  (** [chdir (path)] and [mkdir (path, mode)]: 0 or -1 *)
  sys_chdir : string -> OS -> Z * OS;
  sys_mkdir : string -> Z -> OS -> Z * OS;
  (** [opendir (path)] and the names [readdir] then yields, in its order *)
  sys_opendir : string -> OS -> option (list string) * OS;
  (** [strerror (errno)] *)
  sys_strerror : OS -> string;
  (** what a local variable holds before it is assigned *)
  uninit_str : OS -> string;
  uninit_int : OS -> Z;
  (** [fork ()]: 0 in the child, negative on failure, else the child's id *)
  sys_fork : OS -> Z * OS;
  (** [execvp (file, argv)]: [None] when the image is replaced, else the
      state in which it returned -1 *)
  sys_execvp : string -> list string -> OS -> option OS;
  (** [waitpid (pid, &status, options)]: the status stored, [None] when the
      call fails and stores nothing *)
  sys_waitpid : Z -> Z -> OS -> option Z * OS;
  WUNTRACED : Z;
  WIFEXITED : Z -> bool;
  WIFSIGNALED : Z -> bool;
  WIFSTOPPED : Z -> bool;

  getcwd_cwd : forall n w p, fst (sys_getcwd n w) = Some p -> p = os_cwd w;
  chdir_failure : forall p w,
      fst (sys_chdir p w) <> 0%Z -> os_cwd (snd (sys_chdir p w)) = os_cwd w;
  stopped_not_terminal : forall st,
      WIFSTOPPED st = true -> WIFEXITED st = false /\ WIFSIGNALED st = false
}.

(** ** Process state and outcomes *)

Section Shell.

Context {OS : Type} {P : Posix OS}.

(** The prefix of the diagnostics: [lsh] in [main.c], [mmsh] in its copy. *)
Variable tag : string.

Record proc : Type := mkProc {
  stdin : string;    (** the input not read yet *)
  stdout : string;   (** what was written to standard output *)
  stderr : string;   (** what was written to the error stream *)
  os : OS
}.

Inductive outcome (A : Type) : Type :=
| Ret (a : A) (s : proc)          (** the function returns [a] *)
| Exit (code : Z) (s : proc)      (** [exit (code)]: the process ends *)
| Exec (s : proc)                 (** [execvp] replaced the process image *)
| Running (s : proc)              (** not finished within the fuel *)
| Fault.                          (** a read outside the argument vector *)

Arguments Ret {A} a s.
Arguments Exit {A} code s.
Arguments Exec {A} s.
Arguments Running {A} s.
Arguments Fault {A}.

Definition bind {A B : Type} (m : outcome A) (k : A -> proc -> outcome B)
  : outcome B :=
  match m with
  | Ret a s => k a s
  | Exit c s => Exit c s
  | Exec s => Exec s
  | Running s => Running s
  | Fault => Fault
  end.

Definition set_os (w : OS) (s : proc) : proc :=
  mkProc (stdin s) (stdout s) (stderr s) w.

Definition set_stdin (i : string) (s : proc) : proc :=
  mkProc i (stdout s) (stderr s) (os s).

(** [printf] with its arguments already formatted into [text]. *)
Definition printf (text : string) (s : proc) : proc :=
  mkProc (stdin s) (stdout s ++ text) (stderr s) (os s).

(** [fprintf (stderr, ...)]. *)
Definition eprintf (text : string) (s : proc) : proc :=
  mkProc (stdin s) (stdout s) (stderr s ++ text) (os s).

(** [perror (prefix)]. *)
Definition perror (prefix : string) (s : proc) : proc :=
  eprintf (prefix ++ ": " ++ sys_strerror (os s) ++ nl) s.

(** Run a system call on the state of the operating system. *)
Definition syscall {A : Type} (call : OS -> A * OS) (s : proc) : A * proc :=
  let (r, w) := call (os s) in (r, set_os w s).

(** ** Argument vectors *)

Definition argv : Type := list (option string).

(** The vector the tokenizer builds from a list of tokens. *)
Definition argv_of (tokens : list string) : argv :=
  (map Some tokens ++ [None])%list.

(** The strings of a vector up to its first [NULL]. *)
Fixpoint argv_strings (args : argv) : list string :=
  match args with
  | Some a :: rest => a :: argv_strings rest
  | _ => []
  end.

(** ** Builtin commands *)

Definition builtin_str : list string :=
  ["echo"; "pwd"; "ls"; "mkdir"; "cd"; "help"; "exit"].

Definition lsh_num_builtins : nat := List.length builtin_str.

(** The loop of [lsh_echo], on the part of the vector from index [i] on. *)
Fixpoint echo_loop (rest : argv) (s : proc) : outcome unit :=
  match rest with
  | [] => Fault
  | None :: _ => Ret tt s
  | Some a :: rest' => echo_loop rest' (printf (a ++ " ") s)
  end.

Definition lsh_echo (args : argv) (s : proc) : outcome Z :=
  bind (echo_loop (skipn 1 args) s) (fun _ s =>
  Ret 1%Z (printf nl s)).

Definition lsh_pwd (args : argv) (s : proc) : outcome Z :=
  let (r, s) := syscall (sys_getcwd 1024) s in
  let cwd := match r with
             | Some path => path
             | None => uninit_str (os s)
             end in
  Ret 1%Z (printf ("Current working dir: " ++ cwd ++ nl) s).

Definition lsh_cd (args : argv) (s : proc) : outcome Z :=
  match nth_error args 1 with
  | None => Fault
  | Some None =>
      Ret 1%Z (eprintf (tag ++ ": expected argument to " ++ dq ++ "cd" ++ dq ++ nl) s)
  | Some (Some path) =>
      let (r, s) := syscall (sys_chdir path) s in
      if (r =? 0)%Z then Ret 1%Z s else Ret 1%Z (perror tag s)
  end.

(** The [readdir] loop of [lsh_ls], over the entries of the open stream. *)
Fixpoint ls_loop (entries : list string) (s : proc) : proc :=
  match entries with
  | [] => s
  | d_name :: rest => ls_loop rest (printf (d_name ++ nl) s)
  end.

Definition lsh_ls (args : argv) (s : proc) : outcome Z :=
  let (dp, s) := syscall (sys_opendir "./") s in
  match dp with
  | Some entries => Ret 1%Z (ls_loop entries s)
  | None => Ret 1%Z (perror "Couldn't open the directory" s)
  end.

Definition lsh_mkdir (args : argv) (s : proc) : outcome Z :=
  match nth_error args 1 with
  | None => Fault
  | Some None =>
      Ret 1%Z (eprintf (tag ++ ": expected argument to " ++ dq ++ "mkdir" ++ dq ++ nl) s)
  | Some (Some path) =>
      let (r, s) := syscall (sys_mkdir path 493) s in
      if (r =? 0)%Z then Ret 1%Z s else Ret 1%Z (perror tag s)
  end.

(** The [for] loop of [lsh_help]: [k] iterations are left, from index [i]. *)
Fixpoint help_loop (k i : nat) (s : proc) : proc :=
  match k with
  | O => s
  | S k' => help_loop k' (S i) (printf ("  " ++ nth i builtin_str "" ++ nl) s)
  end.

Definition lsh_help (args : argv) (s : proc) : outcome Z :=
  let s := printf ("Stephen Brennan's LSH" ++ nl) s in
  let s := printf ("Type program names and arguments, and hit enter." ++ nl) s in
  let s := printf ("The following are built in:" ++ nl) s in
  let s := help_loop lsh_num_builtins 0 s in
  let s := printf ("Use the man command for information on other programs." ++ nl) s in
  Ret 1%Z s.

Definition lsh_exit (args : argv) (s : proc) : outcome Z :=
  Ret 0%Z s.

Definition builtin_func : list (argv -> proc -> outcome Z) :=
  [lsh_echo; lsh_pwd; lsh_ls; lsh_mkdir; lsh_cd; lsh_help; lsh_exit].

(** ** Launching a program *)

(** The [do ... while] of [lsh_launch]; [fuel] bounds the calls of
    [waitpid], and [Running] is the parent still waiting after them. *)
Fixpoint wait_loop (fuel : nat) (pid status : Z) (s : proc) : outcome unit :=
  match fuel with
  | O => Running s
  | S fuel' =>
      let (r, s) := syscall (sys_waitpid pid WUNTRACED) s in
      let status := match r with
                    | Some st => st
                    | None => status
                    end in
      if negb (WIFEXITED status) && negb (WIFSIGNALED status)
      then wait_loop fuel' pid status s
      else Ret tt s
  end.

Definition lsh_launch (fuel : nat) (args : argv) (s : proc) : outcome Z :=
  let status := uninit_int (os s) in
  let (pid, s) := syscall sys_fork s in
  if (pid =? 0)%Z then
    match nth_error args 0 with
    | Some (Some file) =>
        match sys_execvp file (argv_strings args) (os s) with
        | None => Exec s
        | Some w => Exit EXIT_FAILURE (perror tag (set_os w s))
        end
    | _ => Fault
    end
  else if (pid <? 0)%Z then
    Ret 1%Z (perror tag s)
  else
    bind (wait_loop fuel pid status s) (fun _ s => Ret 1%Z s).

(** ** Dispatch *)

(** The [for] loop of [lsh_execute]: [k] iterations are left, from [i]. *)
Fixpoint execute_loop (fuel k i : nat) (cmd : string) (args : argv) (s : proc)
  : outcome Z :=
  match k with
  | O => lsh_launch fuel args s
  | S k' =>
      if (strcmp cmd (nth i builtin_str "") =? 0)%Z
      then nth i builtin_func (fun _ _ => Fault) args s
      else execute_loop fuel k' (S i) cmd args s
  end.

Definition lsh_execute (fuel : nat) (args : argv) (s : proc) : outcome Z :=
  match nth_error args 0 with
  | None => Fault
  | Some None => Ret 1%Z s
  | Some (Some cmd) => execute_loop fuel lsh_num_builtins 0 cmd args s
  end.

(** ** Reading a line *)

Definition LSH_RL_BUFSIZE : nat := 1024.

(** The [while (1)] of [lsh_read_line]: [input] is what [getchar] has not
    delivered yet, [buffer] the characters stored so far. *)
Fixpoint read_loop (input buffer : string) (position bufsize : nat) (s : proc)
  : outcome string :=
  match input with
  | EmptyString => Exit EXIT_SUCCESS (set_stdin input s)
  | String c input' =>
      if Ascii.eqb c LF then Ret buffer (set_stdin input' s)
      else
        let buffer := buffer ++ String c EmptyString in
        let position := S position in
        if (bufsize <=? position)%nat then
          let bufsize := bufsize + LSH_RL_BUFSIZE in
          let (ok, s) := syscall (sys_realloc bufsize) s in
          if ok then read_loop input' buffer position bufsize s
          else Exit EXIT_FAILURE
                 (eprintf (tag ++ ": allocation error" ++ nl) (set_stdin input' s))
        else read_loop input' buffer position bufsize s
  end.

Definition lsh_read_line (s : proc) : outcome string :=
  let bufsize := LSH_RL_BUFSIZE in
  let (ok, s) := syscall (sys_malloc (1 * bufsize)) s in
  if ok then read_loop (stdin s) "" 0 bufsize s
  else Exit EXIT_FAILURE (eprintf (tag ++ ": allocation error" ++ nl) s).

(** ** Splitting a line *)

(** The [while (token != NULL)] of [lsh_split_line]: [save] is the pointer
    [strtok] keeps, [tokens] the slots filled so far. *)
Equations? split_loop (token : option string) (save : string)
  (tokens : list string) (position bufsize : nat) (s : proc) : outcome argv
  by wf (String.length save + match token with Some _ => 1 | None => 0 end) lt :=
split_loop None save tokens position bufsize s := Ret (argv_of tokens) s;
split_loop (Some tok) save tokens position bufsize s :=
  if (bufsize <=? S position)%nat then
    if fst (syscall (sys_realloc ((bufsize + LSH_TOK_BUFSIZE) * sizeof_char_p)) s)
    then
      split_loop (fst (strtok_r save LSH_TOK_DELIM))
        (snd (strtok_r save LSH_TOK_DELIM)) (tokens ++ [tok]) (S position)
        (bufsize + LSH_TOK_BUFSIZE)
        (snd (syscall (sys_realloc ((bufsize + LSH_TOK_BUFSIZE) * sizeof_char_p)) s))
    else
      Exit EXIT_FAILURE
        (eprintf (tag ++ ": allocation error" ++ nl)
           (snd (syscall (sys_realloc ((bufsize + LSH_TOK_BUFSIZE) * sizeof_char_p)) s)))
  else
    split_loop (fst (strtok_r save LSH_TOK_DELIM))
      (snd (strtok_r save LSH_TOK_DELIM)) (tokens ++ [tok]) (S position)
      bufsize s.
Proof.
  all: pose proof (strtok_r_length save LSH_TOK_DELIM); lia.
Qed.

Definition lsh_split_line (line : string) (s : proc) : outcome argv :=
  let bufsize := LSH_TOK_BUFSIZE in
  let (ok, s) := syscall (sys_malloc (bufsize * sizeof_char_p)) s in
  if ok then
    let (token, save) := strtok_r line LSH_TOK_DELIM in
    split_loop token save [] 0 bufsize s
  else Exit EXIT_FAILURE (eprintf (tag ++ ": allocation error" ++ nl) s).

(** ** The loop *)

(** The [do ... while (status)] of [lsh_loop]; [fuel] bounds its iterations
    and, in each, the calls of [waitpid].  The two calls of [free] have no
    counterpart: memory is not part of the state. *)
Fixpoint lsh_loop (fuel : nat) (s : proc) : outcome unit :=
  match fuel with
  | O => Running s
  | S fuel' =>
      let s := printf "> " s in
      bind (lsh_read_line s) (fun line s =>
      bind (lsh_split_line line s) (fun args s =>
      bind (lsh_execute fuel args s) (fun status s =>
      if (status =? 0)%Z then Ret tt s else lsh_loop fuel' s)))
  end.

Definition main (fuel : nat) (s : proc) : outcome Z :=
  bind (lsh_loop fuel s) (fun _ s => Ret EXIT_SUCCESS s).

(** The status the process ends with, once it has ended. *)
Definition exit_status (o : outcome Z) : option Z :=
  match o with
  | Ret code _ => Some code
  | Exit code _ => Some code
  | _ => None
  end.

End Shell.

Arguments Ret {OS A} a s.
Arguments Exit {OS A} code s.
Arguments Exec {OS A} s.
Arguments Running {OS A} s.
Arguments Fault {OS A}.

(** The copy of the program: the same functions under its names. *)

Section Copy.

Context {OS : Type} {P : Posix OS}.

Definition mmsh_echo := lsh_echo (OS := OS).
Definition mmsh_pwd := lsh_pwd (P := P).
Definition mmsh_cd := lsh_cd (P := P) "mmsh".
Definition mmsh_ls := lsh_ls (P := P).
Definition mmsh_mkdir := lsh_mkdir (P := P) "mmsh".
Definition mmsh_help := lsh_help (OS := OS).
Definition mmsh_exit := lsh_exit (OS := OS).
Definition mmsh_launch := lsh_launch (P := P) "mmsh".
Definition mmsh_execute := lsh_execute (P := P) "mmsh".
Definition mmsh_read_line := lsh_read_line (P := P) "mmsh".
Definition mmsh_split_line := lsh_split_line (P := P) "mmsh".
Definition mmsh_loop := lsh_loop (P := P) "mmsh".

End Copy.

(** * The vocabulary of the claims *)

(** ** Output of [echo] *)

(** What [lsh_echo] writes before the final newline. *)
Fixpoint echo_text (words : list string) : string :=
  match words with
  | [] => ""
  | a :: rest => (a ++ " ") ++ echo_text rest
  end.

(** ** Tokens

    Written from the specification: delimiters, maximal runs, joining with
    single spaces and equality up to whitespace. *)

Definition is_delim (c : ascii) : bool := str_mem c LSH_TOK_DELIM.

Fixpoint str_all (p : ascii -> bool) (s : string) : bool :=
  match s with
  | EmptyString => true
  | String c s' => p c && str_all p s'
  end.

(** A run of delimiters, possibly empty. *)
Definition delims (d : string) : Prop := str_all is_delim d = true.

(** A non-empty run of characters that are not delimiters. *)
Definition word (t : string) : Prop :=
  t <> "" /\ str_all (fun c => negb (is_delim c)) t = true.

(** Where a word can end: at the end of the line or before a delimiter. *)
Definition at_break (s : string) : bool :=
  match s with
  | EmptyString => true
  | String c _ => is_delim c
  end.

(** [Runs line tokens]: [tokens] are, in order, the maximal runs of
    characters of [line] that are not delimiters.  The line is delimiters,
    or it is delimiters, then a word that stops at a break, then a line
    with the remaining runs. *)
Inductive Runs : string -> list string -> Prop :=
| Runs_nil (d : string) : delims d -> Runs d []
| Runs_cons (d t rest : string) (tokens : list string) :
    delims d -> word t -> at_break rest = true -> Runs rest tokens ->
    Runs (d ++ t ++ rest) (t :: tokens).

Definition nul_free (s : string) : Prop :=
  str_all (fun c => negb (Ascii.eqb c NUL)) s = true.

(** Joining tokens with single spaces. *)
Definition join (tokens : list string) : string := String.concat " " tokens.

(** Collapsing whitespace: every maximal run of whitespace between two
    words becomes one space, and the runs at both ends disappear. *)
Inductive ws_state : Type := AtStart | InWord | InGap.

Fixpoint collapse (st : ws_state) (s : string) : string :=
  match s with
  | EmptyString => EmptyString
  | String c s' =>
      if is_delim c then
        collapse match st with AtStart => AtStart | _ => InGap end s'
      else
        match st with
        | InGap => String SP (String c (collapse InWord s'))
        | _ => String c (collapse InWord s')
        end
  end.

Definition normalize (s : string) : string := collapse AtStart s.

(** Equality of two lines up to whitespace. *)
Definition ws_equal (a b : string) : Prop := normalize a = normalize b.

(** [join] with a space before it, unless there is no token. *)
Definition sep_join (tokens : list string) : string :=
  match tokens with
  | [] => ""
  | _ => " " ++ join tokens
  end.

(** The tokens the loop of [lsh_split_line] is to store, given the token
    at hand and the pointer [strtok] saved. *)
Definition loop_tokens (token : option string) (save : string)
  (tokens : list string) : Prop :=
  match token with
  | None => tokens = []
  | Some t => exists tokens', tokens = t :: tokens' /\ Runs (c_str save) tokens'
  end.

(** ** Waiting and memory *)

Section Vocabulary.

Context {OS : Type} {P : Posix OS}.

Variable tag : string.

Local Abbreviation state := (@proc OS).

(** The state of the system after [n] calls of [waitpid] for [pid]. *)
Fixpoint os_after_waits (n : nat) (pid : Z) (w : OS) : OS :=
  match n with
  | O => w
  | S n' => os_after_waits n' pid (snd (sys_waitpid pid WUNTRACED w))
  end.

(** What the call number [n] of [waitpid] for [pid] reports, from 0. *)
Definition report (n : nat) (pid : Z) (w : OS) : option Z :=
  fst (sys_waitpid pid WUNTRACED (os_after_waits n pid w)).

(** The first [n] reports are stops. *)
Definition stops_before (n : nat) (pid : Z) (w : OS) : Prop :=
  forall k, k < n -> exists st, report k pid w = Some st /\ WIFSTOPPED st = true.

(** Report [n] is a normal exit or a death by signal. *)
Definition ends_at (n : nat) (pid : Z) (w : OS) : Prop :=
  exists st, report n pid w = Some st
             /\ (WIFEXITED st = true \/ WIFSIGNALED st = true).

(** No request for memory is refused. *)
Definition memory_suffices : Prop :=
  forall n (w : OS), fst (sys_malloc n w) = true /\ fst (sys_realloc n w) = true.

(** What a run of the tokenizer can end in: the vector of some tokens, with
    nothing read or written, or the fatal exit on a refused allocation. *)
Definition split_outcome (good : list string -> Prop) (s : state)
  (o : @outcome OS argv) : Prop :=
  match o with
  | Ret args s' =>
      (exists tokens, args = argv_of tokens /\ good tokens)
      /\ stdin s' = stdin s /\ stdout s' = stdout s /\ stderr s' = stderr s
  | Exit code s' =>
      code = EXIT_FAILURE
      /\ stdout s' = stdout s
      /\ stderr s' = stderr s ++ tag ++ ": allocation error" ++ nl
  | _ => False
  end.

End Vocabulary.

(** * A small operating system

    An instance of [Posix] on which the program runs: directories are
    absolute paths, memory is unbounded, a child is the list of the
    statuses [waitpid] will report for it, and the status macros are those
    of Linux. *)

Module Toy.

Record world : Type := mkWorld {
  t_cwd : string;
  t_dirs : list string;       (** the directories that exist *)
  t_errno : string;           (** the message of the last error *)
  t_fork : Z;                 (** what the next [fork] returns *)
  t_path : list string;       (** the programs [execvp] finds *)
  t_wait : list Z             (** the statuses [waitpid] will report *)
}.

Definition set_errno (e : string) (w : world) : world :=
  mkWorld (t_cwd w) (t_dirs w) e (t_fork w) (t_path w) (t_wait w).

Definition has (p : string) (l : list string) : bool :=
  existsb (String.eqb p) l.

(** Memory never runs out. *)
Definition malloc (n : nat) (w : world) : bool * world := (true, w).

Definition getcwd (n : nat) (w : world) : option string * world :=
  if has (t_cwd w) (t_dirs w) then
    if (String.length (t_cwd w) <? n)%nat then (Some (t_cwd w), w)
    else (None, set_errno "Numerical result out of range" w)
  else (None, set_errno "No such file or directory" w).

Definition chdir (p : string) (w : world) : Z * world :=
  if has p (t_dirs w)
  then (0%Z, mkWorld p (t_dirs w) (t_errno w) (t_fork w) (t_path w) (t_wait w))
  else ((-1)%Z, set_errno "No such file or directory" w).

Definition mkdir (p : string) (mode : Z) (w : world) : Z * world :=
  if has p (t_dirs w) then ((-1)%Z, set_errno "File exists" w)
  else (0%Z, mkWorld (t_cwd w) (p :: t_dirs w) (t_errno w) (t_fork w)
               (t_path w) (t_wait w)).

Definition opendir (p : string) (w : world) : option (list string) * world :=
  if has (t_cwd w) (t_dirs w) then (Some ("." :: ".." :: nil), w)
  else (None, set_errno "No such file or directory" w).

Definition execvp (file : string) (args : list string) (w : world) : option world :=
  if has file (t_path w) then None
  else Some (set_errno "No such file or directory" w).

Definition waitpid (pid options : Z) (w : world) : option Z * world :=
  match t_wait w with
  | nil => (None, set_errno "No child processes" w)
  | st :: rest =>
      (Some st, mkWorld (t_cwd w) (t_dirs w) (t_errno w) (t_fork w)
                  (t_path w) rest)
  end.

(** The status macros of Linux. *)
Definition wifexited (st : Z) : bool := (Z.land st 127 =? 0)%Z.
Definition wifsignaled (st : Z) : bool :=
  ((0 <? Z.land st 127) && (Z.land st 127 <? 127))%Z.
Definition wifstopped (st : Z) : bool := (Z.land st 255 =? 127)%Z.

Lemma getcwd_reports_cwd (n : nat) (w : world) (p : string) :
  fst (getcwd n w) = Some p -> p = t_cwd w.
Proof.
  unfold getcwd. destruct (has _ _); [|discriminate].
  destruct (_ <? _)%nat; [|discriminate]. simpl. congruence.
Qed.

Lemma chdir_keeps_cwd (p : string) (w : world) :
  fst (chdir p w) <> 0%Z -> t_cwd (snd (chdir p w)) = t_cwd w.
Proof.
  unfold chdir. destruct (has _ _); simpl; [congruence|reflexivity].
Qed.

Lemma stopped_excludes_end (st : Z) :
  wifstopped st = true -> wifexited st = false /\ wifsignaled st = false.
Proof.
  unfold wifstopped, wifexited, wifsignaled. intros H.
  apply Z.eqb_eq in H.
  assert (E : Z.land st 127 = 127%Z).
  { change 127%Z with (Z.land 255 127) at 1.
    rewrite Z.land_assoc, H. reflexivity. }
  rewrite E. split; reflexivity.
Qed.

#[export] Instance posix : Posix world := {|
  sys_malloc := malloc;
  sys_realloc := malloc;
  sizeof_char_p := 8;
  os_cwd := t_cwd;
  sys_getcwd := getcwd;
  sys_chdir := chdir;
  sys_mkdir := mkdir;
  sys_opendir := opendir;
  sys_strerror := t_errno;
  uninit_str := fun _ => "?";
  uninit_int := fun _ => 127%Z;
  sys_fork := fun w => (t_fork w, w);
  sys_execvp := execvp;
  sys_waitpid := waitpid;
  WUNTRACED := 2%Z;
  WIFEXITED := wifexited;
  WIFSIGNALED := wifsignaled;
  WIFSTOPPED := wifstopped;
  getcwd_cwd := getcwd_reports_cwd;
  chdir_failure := chdir_keeps_cwd;
  stopped_not_terminal := stopped_excludes_end
|}.

(** A world with two directories, in which every call can succeed. *)
Definition world0 : world :=
  mkWorld "/" ("/" :: "/tmp" :: nil) "Success" 7 ("cat" :: nil) (0%Z :: nil).

(** The process started in [w] with [input] on its standard input. *)
Definition start (input : string) (w : world) : proc :=
  mkProc input "" "" w.

(** A child of id 7 that is stopped once and then exits with code 3. *)
Definition world_stop_exit : world :=
  mkWorld "/" ("/" :: "/tmp" :: nil) "Success" 7 ("cat" :: nil)
    (4991%Z :: 768%Z :: nil).

(** A system out of processes. *)
Definition world_no_fork : world :=
  mkWorld "/" ("/" :: "/tmp" :: nil) "Resource temporarily unavailable" (-1)
    ("cat" :: nil) nil.

(** A process whose working directory has been removed. *)
Definition world_gone : world :=
  mkWorld "/gone" ("/" :: "/tmp" :: nil) "Success" 7 ("cat" :: nil) nil.

End Toy.

(** * Properties *)

(** ** Strings *)

Lemma append_nil_r (a : string) : a ++ "" = a.
Proof. induction a as [|c a IH]; simpl; congruence. Qed.

Lemma append_assoc (a b c : string) : (a ++ b) ++ c = a ++ (b ++ c).
Proof. induction a as [|x a IH]; simpl; congruence. Qed.

Lemma strcmp_eq (a b : string) : (strcmp a b =? 0)%Z = true <-> a = b.
Proof.
  unfold strcmp. split.
  - destruct (String.compare a b) eqn:E; try discriminate.
    intros _. now apply String.compare_eq_iff.
  - intros ->. pose proof (String.compare_antisym b b) as H.
    destruct (String.compare b b); simpl in H; try discriminate; reflexivity.
Qed.

Lemma strcmp_neq (a b : string) : a <> b -> (strcmp a b =? 0)%Z = false.
Proof.
  intros H. destruct (strcmp a b =? 0)%Z eqn:E; [|reflexivity].
  apply strcmp_eq in E. contradiction.
Qed.

Section Claims.

Context {OS : Type} {P : Posix OS}.

Variable tag : string.

(** The states of a process of this system. *)
Local Abbreviation state := (@proc OS).

(** ** Dispatch *)

Lemma execute_loop_no_match (fuel k i : nat) (cmd : string) (args : argv) (s : state) :
  (forall j, i <= j < i + k -> nth j builtin_str "" <> cmd) ->
  execute_loop tag fuel k i cmd args s = lsh_launch tag fuel args s.
Proof.
  revert i; induction k as [|k IH]; intros i H; simpl; [reflexivity|].
  rewrite strcmp_neq by (intros E; apply (H i); [lia | now symmetry]).
  apply IH. intros j Hj. apply H. lia.
Qed.

(** C1.  Dispatch, for every argument vector.  A vector whose first slot is
    the end marker does nothing and returns 1 (continue).  A vector whose
    first token is, character for character, one of the seven builtin names
    is handed whole to the handler of that name, whose outcome is the
    outcome of the dispatch.  Any other vector is handed whole to the
    launcher, whose outcome is the outcome of the dispatch. *)
Theorem execute_dispatch (fuel : nat) (s : state) :
  (forall rest, lsh_execute tag fuel (None :: rest) s = Ret 1%Z s)
  /\ (forall cmd rest,
        let args := Some cmd :: rest in
        (cmd = "echo" -> lsh_execute tag fuel args s = lsh_echo args s)
        /\ (cmd = "pwd" -> lsh_execute tag fuel args s = lsh_pwd args s)
        /\ (cmd = "ls" -> lsh_execute tag fuel args s = lsh_ls args s)
        /\ (cmd = "mkdir" -> lsh_execute tag fuel args s = lsh_mkdir tag args s)
        /\ (cmd = "cd" -> lsh_execute tag fuel args s = lsh_cd tag args s)
        /\ (cmd = "help" -> lsh_execute tag fuel args s = lsh_help args s)
        /\ (cmd = "exit" -> lsh_execute tag fuel args s = lsh_exit args s)
        /\ (~ In cmd builtin_str ->
            lsh_execute tag fuel args s = lsh_launch tag fuel args s)).
Proof.
  split; [reflexivity|].
  intros cmd rest args.
  repeat split; try (intros ->; reflexivity).
  intros H. unfold lsh_execute; simpl nth_error; cbv iota.
  apply execute_loop_no_match. intros j Hj E.
  apply H. rewrite <- E. apply nth_In. unfold lsh_num_builtins in Hj. lia.
Qed.

(** ** The builtin commands *)

Lemma printf_printf (a b : string) (s : state) :
  printf b (printf a s) = printf (a ++ b) s.
Proof. cbv [printf stdout]. now rewrite append_assoc. Qed.

Lemma printf_empty (s : state) : printf "" s = s.
Proof. destruct s; cbv [printf stdout]. now rewrite append_nil_r. Qed.

Lemma echo_loop_text (words : list string) (s : state) :
  echo_loop (argv_of words) s = Ret tt (printf (echo_text words) s).
Proof.
  revert s; induction words as [|a words IH]; intros s; simpl.
  - now rewrite printf_empty.
  - change (echo_loop (argv_of words) (printf (a ++ " ") s)
            = Ret tt (printf ((a ++ " ") ++ echo_text words) s)).
    now rewrite IH, printf_printf.
Qed.

Lemma echo_prints (cmd : string) (words : list string) (s : state) :
  lsh_echo (argv_of (cmd :: words)) s = Ret 1%Z (printf (echo_text words ++ nl) s).
Proof.
  cbv delta [lsh_echo] beta.
  change (skipn 1 (argv_of (cmd :: words))) with (argv_of words).
  rewrite echo_loop_text. simpl. now rewrite printf_printf.
Qed.

Lemma pwd_returns (args : argv) (s : state) :
  exists s', lsh_pwd args s = Ret 1%Z s' /\ stderr s' = stderr s.
Proof.
  unfold lsh_pwd, syscall. destruct (sys_getcwd 1024 (os s)) as [r w].
  eexists; split; reflexivity.
Qed.

Lemma ls_returns (args : argv) (s : state) : exists s', lsh_ls args s = Ret 1%Z s'.
Proof.
  unfold lsh_ls, syscall. destruct (sys_opendir "./" (os s)) as [[entries|] w];
    eexists; reflexivity.
Qed.

Lemma cd_returns (cmd : string) (words : list string) (s : state) :
  exists s', lsh_cd tag (argv_of (cmd :: words)) s = Ret 1%Z s'.
Proof.
  unfold lsh_cd, syscall. destruct words as [|path words]; simpl.
  - eexists; reflexivity.
  - destruct (sys_chdir path (os s)) as [r w]. destruct (r =? 0)%Z; eexists; reflexivity.
Qed.

Lemma mkdir_returns (cmd : string) (words : list string) (s : state) :
  exists s', lsh_mkdir tag (argv_of (cmd :: words)) s = Ret 1%Z s'.
Proof.
  unfold lsh_mkdir, syscall. destruct words as [|path words]; simpl.
  - eexists; reflexivity.
  - destruct (sys_mkdir path 493 (os s)) as [r w]. destruct (r =? 0)%Z; eexists; reflexivity.
Qed.

(** C2.  Every entry of the builtin table other than [exit] returns 1
    (continue) on every argument vector the tokenizer can build around a
    command name; the [exit] builtin returns 0 (terminate) on every vector
    whatever, and a line whose first token is [exit] ends the loop at once:
    [lsh_loop] returns, and [main] returns [EXIT_SUCCESS], whatever the
    state. *)
Theorem builtins_continue_exit_terminates :
  (forall i name, nth_error builtin_str i = Some name -> name <> "exit" ->
     forall cmd words (s : state), exists s',
       nth i (builtin_func tag) (fun _ _ => Fault) (argv_of (cmd :: words)) s
       = Ret 1%Z s')
  /\ (nth_error (builtin_func tag) 6 = Some lsh_exit
      /\ nth_error builtin_str 6 = Some "exit"
      /\ forall args (s : state), lsh_exit args s = Ret 0%Z s)
  /\ (forall fuel (s : state) line s1 rest s2,
        lsh_read_line tag (printf "> " s) = Ret line s1 ->
        lsh_split_line tag line s1 = Ret (Some "exit" :: rest) s2 ->
        lsh_loop tag (S fuel) s = Ret tt s2
        /\ main tag (S fuel) s = Ret EXIT_SUCCESS s2
        /\ exit_status (main tag (S fuel) s) = Some EXIT_SUCCESS).
Proof.
  split; [|split].
  - intros i name Hi Hname cmd words s.
    destruct i as [|[|[|[|[|[|[|i]]]]]]]; simpl in *.
    + eexists. apply echo_prints.
    + destruct (pwd_returns (argv_of (cmd :: words)) s) as [s' [H _]]. eauto.
    + apply ls_returns.
    + apply mkdir_returns.
    + apply cd_returns.
    + eexists. reflexivity.
    + congruence.
    + destruct i; discriminate.
  - repeat split.
  - intros fuel s line s1 rest s2 Hread Hsplit.
    assert (L : lsh_loop tag (S fuel) s = Ret tt s2)
      by (simpl; rewrite Hread; simpl; rewrite Hsplit; reflexivity).
    unfold main. rewrite L. repeat split.
Qed.

(** C6, as the code has it.  [lsh_echo] writes every argument followed by
    a space, and then a newline: for [echo a b c] the output is
    [a b c ] and a newline, with a space before the newline, and not
    [a b c] and a newline. *)
Theorem echo_trailing_space (s : state) :
  (forall cmd words,
     lsh_echo (argv_of (cmd :: words)) s = Ret 1%Z (printf (echo_text words ++ nl) s))
  /\ lsh_echo (argv_of ["echo"; "a"; "b"; "c"]) s = Ret 1%Z (printf ("a b c " ++ nl) s)
  /\ "a b c " ++ nl <> "a b c" ++ nl.
Proof.
  split; [|split].
  - intros; apply echo_prints.
  - apply echo_prints.
  - discriminate.
Qed.

(** C8, as the code has it.  [lsh_pwd] returns 1 and writes nothing to
    the error stream, whether [getcwd] succeeds or not; when [getcwd]
    fails, what it prints after the label is what the buffer happened to
    hold. *)
Theorem pwd_failure_unreported (args : argv) (s : state) :
  exists s',
    lsh_pwd args s = Ret 1%Z s'
    /\ stderr s' = stderr s
    /\ match fst (sys_getcwd 1024 (os s)) with
       | Some path => stdout s' = stdout s ++ "Current working dir: " ++ os_cwd (os s) ++ nl
       | None => stdout s' = stdout s ++ "Current working dir: " ++ uninit_str (os s') ++ nl
       end.
Proof.
  unfold lsh_pwd, syscall.
  destruct (sys_getcwd 1024 (os s)) as [r w] eqn:E.
  eexists; split; [reflexivity|split; [reflexivity|]].
  simpl. destruct r as [path|]; [|reflexivity].
  rewrite (getcwd_cwd 1024 (os s) (p := path)); [reflexivity|now rewrite E].
Qed.

(** C7.  [cd] with no argument writes the usage line to the error stream,
    leaves the working directory as it was and returns 1; [cd] with a
    path [chdir] refuses writes the system's message, prefixed by the
    shell's name, to the error stream, leaves the working directory as it
    was and returns 1. *)
Theorem cd_failures (cmd : string) (s : state) :
  (exists s',
     lsh_cd tag (argv_of [cmd]) s = Ret 1%Z s'
     /\ stderr s' = stderr s ++ tag ++ ": expected argument to " ++ dq ++ "cd" ++ dq ++ nl
     /\ stdout s' = stdout s
     /\ os_cwd (os s') = os_cwd (os s))
  /\ (forall path words,
        fst (sys_chdir path (os s)) <> 0%Z ->
        exists s',
          lsh_cd tag (argv_of (cmd :: path :: words)) s = Ret 1%Z s'
          /\ stderr s' = stderr s ++ tag ++ ": " ++ sys_strerror (os s') ++ nl
          /\ stdout s' = stdout s
          /\ os_cwd (os s') = os_cwd (os s)).
Proof.
  split.
  - eexists. repeat split.
  - intros path words Hfail.
    pose proof (chdir_failure path (os s) Hfail) as Hcwd.
    unfold lsh_cd, syscall; simpl.
    destruct (sys_chdir path (os s)) as [r w]; simpl in *.
    apply Z.eqb_neq in Hfail. rewrite Hfail.
    eexists. repeat split. exact Hcwd.
Qed.

(** C10.  [cd] and [mkdir] look at the first argument only.  With any
    further arguments, [cd] calls [chdir] once, on the first argument, and
    [mkdir] calls [mkdir] once, on the first argument with mode 0755; each
    returns 1, writes nothing when its call returns 0 and otherwise only
    the system's message for that call, prefixed by the name of the shell,
    on the error stream: nothing is said of the further arguments.  The
    outcome (the return value, both streams and the state of the system) is
    that of the call with the first argument alone. *)
Theorem cd_mkdir_extra_arguments (cmd path : string) (words : list string) (s : state) :
  let c := sys_chdir path (os s) in
  let m := sys_mkdir path 493 (os s) in
  lsh_cd tag (argv_of (cmd :: path :: words)) s
  = Ret 1%Z (if (fst c =? 0)%Z then set_os (snd c) s
             else eprintf (tag ++ ": " ++ sys_strerror (snd c) ++ nl)
                    (set_os (snd c) s))
  /\ lsh_mkdir tag (argv_of (cmd :: path :: words)) s
     = Ret 1%Z (if (fst m =? 0)%Z then set_os (snd m) s
                else eprintf (tag ++ ": " ++ sys_strerror (snd m) ++ nl)
                       (set_os (snd m) s))
  /\ lsh_cd tag (argv_of (cmd :: path :: words)) s = lsh_cd tag (argv_of [cmd; path]) s
  /\ lsh_mkdir tag (argv_of (cmd :: path :: words)) s
     = lsh_mkdir tag (argv_of [cmd; path]) s.
Proof.
  intros c m. subst c m. unfold lsh_cd, lsh_mkdir, syscall.
  cbn [argv_of map app nth_error].
  destruct (sys_chdir path (os s)) as [rc wc].
  destruct (sys_mkdir path 493 (os s)) as [rm wm]. cbn [fst snd].
  destruct (rc =? 0)%Z, (rm =? 0)%Z; repeat split; reflexivity.
Qed.

(** ** End of input *)

(** C3.  When the input is at its end as the line reader starts, so that
    no character has been accumulated, the reader ends the process with
    [exit (EXIT_SUCCESS)] and writes nothing; hence at a prompt the loop
    does not go on: after the prompt nothing more is written and the
    process ends with status [EXIT_SUCCESS].  (The reader comes to read the
    input once its buffer is allocated.) *)
Theorem eof_exits_with_success (s : state) :
  stdin s = "" ->
  fst (sys_malloc (1 * LSH_RL_BUFSIZE) (os s)) = true ->
  (exists s',
     lsh_read_line tag s = Exit EXIT_SUCCESS s'
     /\ stdout s' = stdout s /\ stderr s' = stderr s)
  /\ (forall fuel, exists s',
        lsh_loop tag (S fuel) s = Exit EXIT_SUCCESS s'
        /\ main tag (S fuel) s = Exit EXIT_SUCCESS s'
        /\ exit_status (main tag (S fuel) s) = Some EXIT_SUCCESS
        /\ stdout s' = stdout s ++ "> " /\ stderr s' = stderr s).
Proof.
  intros Hin Hmem.
  assert (R : forall s0 : state, stdin s0 = "" -> os s0 = os s ->
            lsh_read_line tag s0
            = Exit EXIT_SUCCESS (set_stdin "" (set_os (snd (sys_malloc (1 * LSH_RL_BUFSIZE) (os s))) s0))).
  { intros s0 Hin0 Hos. unfold lsh_read_line, syscall. rewrite Hos.
    destruct (sys_malloc (1 * LSH_RL_BUFSIZE) (os s)) as [ok w]; simpl in Hmem.
    subst ok. cbn [snd stdin set_os]. rewrite Hin0. reflexivity. }
  split.
  - eexists. split; [apply R; auto|]. split; reflexivity.
  - intros fuel. eexists.
    assert (L : lsh_loop tag (S fuel) s = Exit EXIT_SUCCESS
                  (set_stdin "" (set_os (snd (sys_malloc (1 * LSH_RL_BUFSIZE) (os s)))
                                   (printf "> " s)))).
    { cbn [lsh_loop]. rewrite R by (simpl; auto). reflexivity. }
    split; [exact L|]. unfold main. rewrite L. repeat split.
Qed.

(** ** The launcher *)

Lemma wait_loop_stops (fuel n : nat) (pid status : Z) (s : state) :
  stops_before n pid (os s) -> fuel <= n ->
  wait_loop fuel pid status s = Running (set_os (os_after_waits fuel pid (os s)) s).
Proof.
  revert n status s; induction fuel as [|fuel IH]; intros n status s Hstop Hle.
  - destruct s; reflexivity.
  - destruct n as [|n]; [lia|].
    destruct (Hstop 0) as [st [Hr Hst]]; [lia|].
    unfold report in Hr; simpl in Hr.
    cbn [wait_loop]. unfold syscall.
    destruct (sys_waitpid pid WUNTRACED (os s)) as [r w] eqn:E; simpl in Hr; subst r.
    destruct (stopped_not_terminal st Hst) as [-> ->]. cbn [negb andb].
    rewrite (IH n); [| |lia].
    + cbn [os_after_waits set_os os stdin stdout stderr]. now rewrite E.
    + intros k Hk. destruct (Hstop (S k)) as [st' H']; [lia|].
      exists st'. unfold report in *. cbn [os_after_waits] in H'.
      rewrite E in H'. exact H'.
Qed.

Lemma wait_loop_ends (fuel n : nat) (pid status : Z) (s : state) :
  stops_before n pid (os s) -> ends_at n pid (os s) -> n < fuel ->
  wait_loop fuel pid status s = Ret tt (set_os (os_after_waits (S n) pid (os s)) s).
Proof.
  revert n status s; induction fuel as [|fuel IH]; intros n status s Hstop Hend Hlt;
    [lia|].
  cbn [wait_loop]. unfold syscall.
  destruct (sys_waitpid pid WUNTRACED (os s)) as [r w] eqn:E.
  destruct n as [|n].
  - destruct Hend as [st [Hr Hst]]. unfold report in Hr; simpl in Hr.
    rewrite E in Hr; simpl in Hr; subst r.
    cbn [os_after_waits]. rewrite E. cbn [snd].
    destruct Hst as [-> | ->]; [|rewrite andb_false_r]; reflexivity.
  - destruct (Hstop 0) as [st [Hr Hst]]; [lia|].
    unfold report in Hr; simpl in Hr. rewrite E in Hr; simpl in Hr; subst r.
    destruct (stopped_not_terminal st Hst) as [-> ->]. cbn [negb andb].
    rewrite (IH n); [| | |lia].
    + cbn [os_after_waits set_os os stdin stdout stderr]. now rewrite E.
    + intros k Hk. destruct (Hstop (S k)) as [st' H']; [lia|].
      exists st'. unfold report in *. cbn [os_after_waits] in H'.
      rewrite E in H'. exact H'.
    + destruct Hend as [st' H']. exists st'. unfold report in *.
      cbn [os_after_waits] in H'. rewrite E in H'. exact H'.
Qed.

Lemma launch_returns_one (fuel : nat) (args : argv) (s s' : state) (v : Z) :
  lsh_launch tag fuel args s = Ret v s' -> v = 1%Z.
Proof.
  unfold lsh_launch, syscall. destruct (sys_fork (os s)) as [pid w].
  destruct (pid =? 0)%Z.
  - destruct (nth_error args 0) as [[file|]|]; try discriminate.
    destruct (sys_execvp _ _ _); discriminate.
  - destruct (pid <? 0)%Z; [congruence|].
    destruct (wait_loop _ _ _ _); simpl; congruence.
Qed.

(** C9.  The launcher, in the process that called [fork].  When [fork]
    fails it writes the system's message to the error stream and returns 1
    (continue).  When [fork] returns a child and [waitpid] reports [n]
    stops of that child and then its exit or its death by a signal, the
    launcher has not returned as long as only the stops were reported, and
    once the end is reported it returns 1, whatever status the end carries.
    Whenever the launcher returns, it returns 1. *)
Theorem launch_waits_for_the_end (fuel : nat) (args : argv) (s : state) :
  let pid := fst (sys_fork (os s)) in
  let s1 := set_os (snd (sys_fork (os s))) s in
  ((pid < 0)%Z ->
     lsh_launch tag fuel args s = Ret 1%Z (perror tag s1)
     /\ stderr (perror tag s1) = stderr s ++ tag ++ ": " ++ sys_strerror (os s1) ++ nl)
  /\ ((0 < pid)%Z ->
      forall n, stops_before n pid (os s1) ->
        (fuel <= n ->
           lsh_launch tag fuel args s
           = Running (set_os (os_after_waits fuel pid (os s1)) s1))
        /\ (ends_at n pid (os s1) -> n < fuel ->
            lsh_launch tag fuel args s
            = Ret 1%Z (set_os (os_after_waits (S n) pid (os s1)) s1)))
  /\ (forall v s', lsh_launch tag fuel args s = Ret v s' -> v = 1%Z).
Proof.
  intros pid s1. split; [|split].
  - intros Hneg. split; [|reflexivity].
    unfold lsh_launch, syscall. subst pid s1.
    destruct (sys_fork (os s)) as [pid w]; simpl in *.
    replace (pid =? 0)%Z with false by (symmetry; apply Z.eqb_neq; lia).
    replace (pid <? 0)%Z with true by (symmetry; apply Z.ltb_lt; lia).
    reflexivity.
  - intros Hpos n Hstop.
    assert (E : lsh_launch tag fuel args s
               = bind (wait_loop fuel pid (uninit_int (os s)) s1)
                   (fun _ s => Ret 1%Z s)).
    { unfold lsh_launch, syscall. subst pid s1.
      destruct (sys_fork (os s)) as [pid w]; simpl in *.
      replace (pid =? 0)%Z with false by (symmetry; apply Z.eqb_neq; lia).
      replace (pid <? 0)%Z with false by (symmetry; apply Z.ltb_ge; lia).
      reflexivity. }
    split.
    + intros Hle. rewrite E, (wait_loop_stops _ _ Hstop Hle). reflexivity.
    + intros Hend Hlt. rewrite E, (wait_loop_ends _ _ Hstop Hend Hlt). reflexivity.
  - intros v s'. apply launch_returns_one.
Qed.

End Claims.

(** ** Tokens *)

Lemma is_delim_set (c : ascii) :
  is_delim c = true <-> c = SP \/ c = TAB \/ c = CR \/ c = LF \/ c = BEL.
Proof.
  unfold is_delim, LSH_TOK_DELIM; simpl.
  rewrite !orb_true_iff, !Ascii.eqb_eq. intuition discriminate.
Qed.

Lemma str_all_app (p : ascii -> bool) (a b : string) :
  str_all p (a ++ b) = str_all p a && str_all p b.
Proof.
  induction a as [|c a IH]; simpl; [reflexivity|]. now rewrite IH, andb_assoc.
Qed.

Lemma delims_cons (c : ascii) (d : string) :
  is_delim c = true -> delims d -> delims (String c d).
Proof. unfold delims; simpl. now intros -> ->. Qed.

Lemma Runs_delim_cons (c : ascii) (l : string) (tokens : list string) :
  is_delim c = true -> Runs l tokens -> Runs (String c l) tokens.
Proof.
  intros Hc H. destruct H as [d Hd | d t rest tokens Hd Ht Hb Hr].
  - apply Runs_nil. now apply delims_cons.
  - change (Runs (String c d ++ t ++ rest) (t :: tokens)).
    apply Runs_cons; auto. now apply delims_cons.
Qed.

Lemma Runs_words (l : string) (tokens : list string) :
  Runs l tokens -> Forall word tokens.
Proof. induction 1; constructor; auto. Qed.

Lemma Runs_nul_free (l : string) (tokens : list string) :
  Runs l tokens -> nul_free l -> Forall nul_free tokens.
Proof.
  unfold nul_free. induction 1 as [|d t rest tokens Hd Ht Hb Hr IH]; intros Hl.
  - constructor.
  - rewrite !str_all_app in Hl. apply andb_true_iff in Hl as [_ Hl].
    apply andb_true_iff in Hl as [H1 H2]. constructor; auto.
Qed.

(** The longest prefix on which [p] holds is determined. *)
Lemma span_unique (p : ascii -> bool) (a b x y : string) :
  str_all p a = true -> str_all p b = true ->
  (x = "" \/ p (deref x) = false) -> (y = "" \/ p (deref y) = false) ->
  a ++ x = b ++ y -> a = b /\ x = y.
Proof.
  revert b; induction a as [|c a IH]; intros [|e b] Ha Hb Hx Hy E; simpl in *.
  - auto.
  - subst x. apply andb_true_iff in Hb as [He _].
    destruct Hx as [Hx|Hx]; [discriminate|]. simpl in Hx. congruence.
  - apply andb_true_iff in Ha as [Hc _]. destruct y as [|e y].
    + destruct a; discriminate.
    + injection E as -> E. destruct Hy as [Hy|Hy]; [discriminate|].
      simpl in Hy. congruence.
  - injection E as -> E.
    apply andb_true_iff in Ha as [_ Ha]. apply andb_true_iff in Hb as [_ Hb].
    destruct (IH b Ha Hb Hx Hy E) as [-> ->]. auto.
Qed.

Lemma word_head (t x : string) :
  word t -> t ++ x <> "" /\ is_delim (deref (t ++ x)) = false.
Proof.
  intros [Hne Hall]. destruct t as [|c t]; [contradiction|]. simpl in *.
  apply andb_true_iff in Hall as [Hc _]. apply negb_true_iff in Hc.
  split; [discriminate|assumption].
Qed.

Lemma word_not_delims (d t rest : string) : word t -> delims (d ++ t ++ rest) -> False.
Proof.
  intros Ht H. unfold delims in H. rewrite str_all_app in H.
  apply andb_true_iff in H as [_ H].
  destruct (word_head rest Ht) as [Hne Hd].
  destruct (t ++ rest) as [|c x]; [contradiction|]. simpl in *.
  apply andb_true_iff in H as [H _]. congruence.
Qed.

Lemma at_break_stops (rest : string) :
  at_break rest = true -> rest = "" \/ negb (is_delim (deref rest)) = false.
Proof.
  destruct rest as [|c rest]; simpl; [now left|]. intros ->. now right.
Qed.

(** A line has one sequence of maximal runs. *)
Lemma Runs_unique (l : string) (t1 t2 : list string) :
  Runs l t1 -> Runs l t2 -> t1 = t2.
Proof.
  intros H1; revert t2.
  induction H1 as [d Hd | d t rest tokens Hd Ht Hb Hr IH]; intros t2 H2.
  - inversion H2 as [|d' t' rest' tokens' Hd' Ht' Hb' Hr' E]; subst; [reflexivity|].
    destruct (word_not_delims _ _ Ht' Hd).
  - inversion H2 as [d' Hd' E|d' t' rest' tokens' Hd' Ht' Hb' Hr' E]; subst.
    + destruct (word_not_delims _ _ Ht Hd').
    + destruct (word_head rest Ht) as [Hne Hh].
      destruct (word_head rest' Ht') as [Hne' Hh'].
      destruct (@span_unique is_delim d' d (t' ++ rest') (t ++ rest)) as [-> E2];
        auto.
      destruct (@span_unique (fun c => negb (is_delim c)) t' t rest' rest) as [-> ->];
        auto using at_break_stops; try apply Ht; try apply Ht'.
      f_equal. now apply IH.
Qed.

(** *** Whitespace *)

Lemma join_cons (t : string) (tokens : list string) :
  join (t :: tokens) = t ++ sep_join tokens.
Proof. destruct tokens; simpl; [now rewrite append_nil_r|reflexivity]. Qed.

Lemma collapse_delims (st : ws_state) (d x : string) :
  delims d ->
  collapse st (d ++ x)
  = collapse match d, st with
             | EmptyString, _ => st
             | _, AtStart => AtStart
             | _, _ => InGap
             end x.
Proof.
  unfold delims. revert st; induction d as [|c d IH]; intros st H; simpl in *.
  - reflexivity.
  - apply andb_true_iff in H as [-> H]. rewrite IH by assumption.
    destruct d, st; reflexivity.
Qed.

Lemma collapse_only_delims (st : ws_state) (d : string) :
  delims d -> collapse st d = "".
Proof.
  intros H. rewrite <- (append_nil_r d), collapse_delims by assumption.
  reflexivity.
Qed.

Lemma collapse_in_word (t x : string) :
  str_all (fun c => negb (is_delim c)) t = true ->
  collapse InWord (t ++ x) = t ++ collapse InWord x.
Proof.
  induction t as [|c t IH]; simpl; [reflexivity|]. intros H.
  apply andb_true_iff in H as [Hc H]. apply negb_true_iff in Hc.
  now rewrite Hc, IH.
Qed.

Lemma collapse_word (st : ws_state) (t x : string) :
  word t ->
  collapse st (t ++ x)
  = match st with InGap => " " | _ => "" end ++ t ++ collapse InWord x.
Proof.
  intros [Hne H]. destruct t as [|c t]; [contradiction|]. simpl in *.
  apply andb_true_iff in H as [Hc H]. apply negb_true_iff in Hc.
  rewrite Hc, collapse_in_word by assumption. destruct st; reflexivity.
Qed.

Lemma Runs_collapse (l : string) (tokens : list string) :
  Runs l tokens ->
  collapse AtStart l = join tokens
  /\ collapse InGap l = sep_join tokens
  /\ (at_break l = true -> collapse InWord l = sep_join tokens).
Proof.
  induction 1 as [d Hd | d t rest tokens Hd Ht Hb Hr [_ [_ IH]]].
  - rewrite !collapse_only_delims by assumption. repeat split.
  - specialize (IH Hb).
    assert (W : forall st,
               collapse st (t ++ rest)
               = match st with InGap => " " | _ => "" end ++ join (t :: tokens)).
    { intros st. now rewrite (collapse_word st rest Ht), IH, join_cons. }
    split; [|split].
    + rewrite collapse_delims, W by assumption. destruct d; reflexivity.
    + rewrite collapse_delims, W by assumption. destruct d; reflexivity.
    + intros Hl. destruct d as [|c d].
      * destruct (word_head rest Ht) as [Hne Hh]. simpl in Hl.
        destruct (t ++ rest); [contradiction|]. simpl in *. congruence.
      * rewrite collapse_delims, W by assumption. reflexivity.
Qed.

Lemma join_Runs (tokens : list string) : Forall word tokens -> Runs (join tokens) tokens.
Proof.
  induction 1 as [|t tokens Ht _ IH].
  - apply Runs_nil. reflexivity.
  - rewrite join_cons. apply (@Runs_cons "" t (sep_join tokens) tokens); auto;
      [reflexivity| |].
    + destruct tokens; reflexivity.
    + destruct tokens as [|u tokens]; [apply Runs_nil; reflexivity|].
      apply (@Runs_delim_cons SP); [reflexivity|exact IH].
Qed.

Lemma join_nul_free (tokens : list string) :
  Forall nul_free tokens -> nul_free (join tokens).
Proof.
  unfold nul_free. induction 1 as [|t tokens Ht _ IH]; [reflexivity|].
  rewrite join_cons, str_all_app, Ht. destruct tokens; [reflexivity|exact IH].
Qed.

Lemma c_str_nul_free (s : string) : nul_free (c_str s).
Proof.
  unfold nul_free. induction s as [|c s IH]; simpl; [reflexivity|].
  destruct (Ascii.eqb c NUL) eqn:E; simpl; [reflexivity|]. now rewrite E.
Qed.

Lemma c_str_id (s : string) : nul_free s -> c_str s = s.
Proof.
  unfold nul_free. induction s as [|c s IH]; simpl; [reflexivity|].
  intros H. apply andb_true_iff in H as [Hc H]. apply negb_true_iff in Hc.
  now rewrite Hc, IH.
Qed.

(** *** What [strtok] finds *)

Lemma at_nul_c_str (s : string) : at_nul s = true -> c_str s = "".
Proof. destruct s as [|c s]; unfold at_nul; simpl; [reflexivity|]. now intros ->. Qed.

Lemma c_str_strspn (s dl : string) :
  c_str s = str_take (strspn s dl) s ++ c_str (str_drop (strspn s dl) s).
Proof.
  induction s as [|c s IH]; simpl; [reflexivity|].
  destruct (Ascii.eqb c NUL) eqn:E; simpl; [now rewrite E|].
  destruct (str_mem c dl); simpl; [now rewrite <- IH| now rewrite E].
Qed.

Lemma strspn_all (s dl : string) :
  str_all (fun c => str_mem c dl) (str_take (strspn s dl) s) = true.
Proof.
  induction s as [|c s IH]; simpl; [reflexivity|].
  destruct (Ascii.eqb c NUL); simpl; [reflexivity|].
  destruct (str_mem c dl) eqn:M; simpl; [now rewrite M|reflexivity].
Qed.

Lemma c_str_strcspn (s dl : string) :
  c_str s = str_take (strcspn s dl) s ++ c_str (str_drop (strcspn s dl) s).
Proof.
  induction s as [|c s IH]; simpl; [reflexivity|].
  destruct (Ascii.eqb c NUL) eqn:E; simpl; [now rewrite E|].
  destruct (str_mem c dl); simpl; [now rewrite E| now rewrite <- IH].
Qed.

Lemma strcspn_all (s dl : string) :
  str_all (fun c => negb (str_mem c dl)) (str_take (strcspn s dl) s) = true.
Proof.
  induction s as [|c s IH]; simpl; [reflexivity|].
  destruct (Ascii.eqb c NUL); simpl; [reflexivity|].
  destruct (str_mem c dl) eqn:M; simpl; [reflexivity|now rewrite M].
Qed.

Lemma strcspn_stop (s dl : string) :
  at_nul (str_drop (strcspn s dl) s) = false ->
  str_mem (deref (str_drop (strcspn s dl) s)) dl = true.
Proof.
  unfold at_nul. induction s as [|c s IH]; simpl; [discriminate|].
  destruct (Ascii.eqb c NUL) eqn:E; simpl; [rewrite E; discriminate|].
  destruct (str_mem c dl) eqn:M; simpl; auto.
Qed.

Lemma str_take_nonempty (n : nat) (s : string) :
  0 < n -> at_nul s = false -> str_take n s <> "".
Proof.
  destruct n as [|n]; [lia|]. destruct s as [|c s]; unfold at_nul; simpl; discriminate.
Qed.

(** One call of [strtok] on the delimiters of the shell: either the
    C string at [s] holds delimiters only, or it is delimiters, the token,
    and a rest that starts at a break and has the runs of what the saved
    pointer holds. *)
Lemma strtok_r_token (s : string) :
  match strtok_r s LSH_TOK_DELIM with
  | (None, _) => delims (c_str s)
  | (Some t, save) =>
      exists d rest,
        c_str s = d ++ t ++ rest /\ delims d /\ word t /\ at_break rest = true
        /\ forall tokens, Runs (c_str save) tokens -> Runs rest tokens
  end.
Proof.
  unfold strtok_r. destruct (at_nul s) eqn:E0.
  { rewrite at_nul_c_str by assumption. reflexivity. }
  pose proof (c_str_strspn s LSH_TOK_DELIM) as Hs.
  pose proof (strspn_all s LSH_TOK_DELIM) as Hd.
  pose proof (strspn_stop s LSH_TOK_DELIM) as Hstop.
  remember (str_drop (strspn s LSH_TOK_DELIM) s) as s1 eqn:Hs1.
  remember (str_take (strspn s LSH_TOK_DELIM) s) as d eqn:Hd1.
  clear Hs1 Hd1. destruct (at_nul s1) eqn:E1.
  { rewrite Hs, at_nul_c_str, append_nil_r by assumption. exact Hd. }
  specialize (Hstop eq_refl).
  pose proof (c_str_strcspn s1 LSH_TOK_DELIM) as Ht.
  pose proof (strcspn_all s1 LSH_TOK_DELIM) as Hw.
  pose proof (strcspn_stop s1 LSH_TOK_DELIM) as Hend.
  pose proof (strcspn_pos s1 LSH_TOK_DELIM E1 Hstop) as [Hpos _].
  pose proof (str_take_nonempty s1 Hpos E1) as Hne.
  remember (str_drop (strcspn s1 LSH_TOK_DELIM) s1) as e eqn:He.
  remember (str_take (strcspn s1 LSH_TOK_DELIM) s1) as t eqn:Ht1.
  clear He Ht1. destruct (at_nul e) eqn:E2.
  - exists d, "". rewrite Hs, Ht, (at_nul_c_str e E2).
    repeat split; auto.
  - specialize (Hend eq_refl). destruct e as [|c e]; [discriminate|].
    unfold at_nul in E2; simpl in *. rewrite E2 in Ht.
    exists d, (String c (c_str e)). rewrite Hs, Ht.
    repeat split; auto. intros tokens. now apply Runs_delim_cons.
Qed.

Lemma strtok_r_runs (s : string) (tokens : list string) :
  loop_tokens (fst (strtok_r s LSH_TOK_DELIM)) (snd (strtok_r s LSH_TOK_DELIM)) tokens ->
  Runs (c_str s) tokens.
Proof.
  pose proof (strtok_r_token s) as H.
  destruct (strtok_r s LSH_TOK_DELIM) as [[t|] save]; simpl.
  - destruct H as [d [rest [-> [Hd [Ht [Hb Hr]]]]]].
    intros [tokens' [-> H']]. apply Runs_cons; auto.
  - intros ->. now apply Runs_nil.
Qed.

Section Tokenizer.

Context {OS : Type} {P : Posix OS}.

Variable tag : string.

Local Abbreviation state := (@proc OS).

Lemma split_outcome_weaken (good good' : list string -> Prop) (s s0 : state)
  (o : @outcome OS argv) :
  (forall tokens, good tokens -> good' tokens) ->
  stdin s = stdin s0 -> stdout s = stdout s0 -> stderr s = stderr s0 ->
  split_outcome tag good s o -> split_outcome tag good' s0 o.
Proof.
  intros Hg H1 H2 H3. destruct o as [args s'|code s'| | |]; simpl; auto.
  - intros [[tokens [-> H]] [E1 [E2 E3]]].
    split; [eauto|]. repeat split; congruence.
  - intros [-> [E2 E3]]. repeat split; congruence.
Qed.

Lemma split_loop_outcome (token : option string) (save : string)
  (acc : list string) (position bufsize : nat) (s : state) :
  split_outcome tag
    (fun tokens => exists rest, tokens = (acc ++ rest)%list /\ loop_tokens token save rest)
    s (split_loop tag token save acc position bufsize s).
Proof.
  funelim (split_loop tag token save acc position bufsize s).
  - assert (G : forall all : list string,
               (exists rest, all = ((tokens ++ [tok]) ++ rest)%list
                             /\ loop_tokens (fst (strtok_r save LSH_TOK_DELIM))
                                  (snd (strtok_r save LSH_TOK_DELIM)) rest) ->
               exists rest, all = (tokens ++ rest)%list
                            /\ loop_tokens (Some tok) save rest).
    { intros all [rest [-> Hr]]. exists (tok :: rest).
      rewrite <- app_assoc. split; [reflexivity|].
      exists rest. split; [reflexivity|]. now apply strtok_r_runs. }
    destruct (bufsize <=? S position)%nat.
    + destruct (fst (syscall (sys_realloc _) s)).
      * revert H. apply split_outcome_weaken; auto;
          unfold syscall; destruct (sys_realloc _ _); reflexivity.
      * unfold syscall; destruct (sys_realloc _ _); simpl; auto.
    + revert H0. apply split_outcome_weaken; auto.
  - simpl. repeat split. exists tokens. split; [reflexivity|].
    exists []. now rewrite app_nil_r.
Qed.

Lemma split_loop_returns (token : option string) (save : string)
  (acc : list string) (position bufsize : nat) (s : state) :
  memory_suffices ->
  exists args s', split_loop tag token save acc position bufsize s = Ret args s'.
Proof.
  intros Hmem. funelim (split_loop tag token save acc position bufsize s).
  - destruct (bufsize <=? S position)%nat; [|auto].
    unfold syscall in *.
    pose proof (proj2 (Hmem ((bufsize + LSH_TOK_BUFSIZE) * sizeof_char_p) (os s))) as M.
    destruct (sys_realloc _ _) as [ok w]; simpl in M; subst ok. auto.
  - eauto.
Qed.

Lemma split_line_outcome (line : string) (s : state) :
  split_outcome tag (Runs (c_str line)) s (lsh_split_line tag line s).
Proof.
  unfold lsh_split_line, syscall.
  destruct (sys_malloc _ _) as [[|] w]; [|simpl; auto].
  pose proof (strtok_r_runs line) as Hruns.
  destruct (strtok_r line LSH_TOK_DELIM) as [token save]; simpl in Hruns.
  generalize (split_loop_outcome token save [] 0 LSH_TOK_BUFSIZE (set_os w s)).
  apply split_outcome_weaken; auto.
  intros tokens [rest [-> H]]. now apply Hruns.
Qed.

Lemma split_line_returns (line : string) (s : state) :
  memory_suffices ->
  exists tokens s',
    lsh_split_line tag line s = Ret (argv_of tokens) s' /\ Runs (c_str line) tokens.
Proof.
  intros Hmem. pose proof (split_line_outcome line s) as Hout.
  assert (R : exists args s', lsh_split_line tag line s = Ret args s').
  { unfold lsh_split_line, syscall.
    pose proof (proj1 (Hmem (LSH_TOK_BUFSIZE * sizeof_char_p) (os s))) as M.
    destruct (sys_malloc _ _) as [ok w]; simpl in M; subst ok.
    destruct (strtok_r line LSH_TOK_DELIM) as [token save].
    now apply split_loop_returns. }
  destruct R as [args [s' R]]. rewrite R in Hout.
  destruct Hout as [[tokens [-> H]] _]. eauto.
Qed.

(** C4.  The delimiters are space, tab, carriage return, newline and
    bell.  On every line the tokenizer either ends the process for want of
    memory, or returns, having read and written nothing, the vector of
    the maximal runs of characters of the line that are not delimiters, in
    order and closed by the end marker: every token is a non-empty run
    without delimiter, no other sequence is the runs of the line, and a line
    that is empty or holds delimiters only gives the end marker alone.
    When no allocation is refused the tokenizer returns that vector.  The
    line is the C string the buffer holds. *)
Theorem split_line_maximal_runs (line : string) (s : state) :
  (forall c, is_delim c = true <-> c = SP \/ c = TAB \/ c = CR \/ c = LF \/ c = BEL)
  /\ split_outcome tag
       (fun tokens =>
          Runs (c_str line) tokens
          /\ Forall word tokens
          /\ (forall other, Runs (c_str line) other -> other = tokens)
          /\ (delims (c_str line) -> tokens = []))
       s (lsh_split_line tag line s)
  /\ (memory_suffices ->
      exists tokens s',
        lsh_split_line tag line s = Ret (map Some tokens ++ [None])%list s'
        /\ Runs (c_str line) tokens
        /\ (delims (c_str line) -> map Some tokens ++ [None] = [None])%list).
Proof.
  assert (E : forall tokens, Runs (c_str line) tokens ->
                             delims (c_str line) -> tokens = []).
  { intros tokens H Hd. apply (Runs_unique H). now apply Runs_nil. }
  split; [exact is_delim_set|split].
  - generalize (split_line_outcome line s). apply split_outcome_weaken; auto.
    intros tokens H. repeat split; auto.
    + now apply Runs_words in H.
    + intros other H'. apply (Runs_unique H' H).
  - intros Hmem. destruct (split_line_returns line s Hmem) as [tokens [s' [R H]]].
    exists tokens, s'. repeat split; auto.
    intros Hd. now rewrite (E tokens H Hd).
Qed.

(** C5.  When no allocation is refused, the tokens of a line, joined with
    single spaces, make a line equal to the first up to whitespace, and
    tokenizing that line gives the same tokens again.  The line is the
    C string the buffer holds; it need not be non-empty. *)
Theorem split_join_round_trip (line : string) (s : state) :
  memory_suffices ->
  exists tokens s',
    lsh_split_line tag line s = Ret (argv_of tokens) s'
    /\ ws_equal (join tokens) (c_str line)
    /\ forall s2 : state, exists s3,
         lsh_split_line tag (join tokens) s2 = Ret (argv_of tokens) s3.
Proof.
  intros Hmem. destruct (split_line_returns line s Hmem) as [tokens [s' [R H]]].
  exists tokens, s'.
  assert (J : Runs (join tokens) tokens) by (apply join_Runs; now apply Runs_words in H).
  split; [exact R|split].
  - unfold ws_equal, normalize.
    rewrite (proj1 (Runs_collapse J)), (proj1 (Runs_collapse H)). reflexivity.
  - intros s2. destruct (split_line_returns (join tokens) s2 Hmem) as [again [s3 [R2 H2]]].
    exists s3. rewrite R2.
    rewrite c_str_id in H2
      by (apply join_nul_free; apply (Runs_nul_free H); apply c_str_nul_free).
    now rewrite (Runs_unique H2 J).
Qed.

End Tokenizer.

(** * The program at work

    Runs of the program on the small operating system: the instances that
    show the hypotheses of the theorems above can be met, and the two
    places where the program departs from its description. *)

Module Sessions.

Import Toy.

Lemma toy_memory_suffices : memory_suffices (P := posix).
Proof. intros n w; split; reflexivity. Defined.

Lemma execute_dispatch_witness :
  ~ In "Echo" builtin_str
  /\ lsh_execute "lsh" 2 (Some "Echo" :: argv_of ["hi"]) (start "" world0)
     = lsh_launch "lsh" 2 (Some "Echo" :: argv_of ["hi"]) (start "" world0)
  /\ lsh_execute "lsh" 2 (Some "echo" :: argv_of ["hi"]) (start "" world0)
     = lsh_echo (Some "echo" :: argv_of ["hi"]) (start "" world0).
Proof.
  assert (H : ~ In "Echo" builtin_str) by (simpl; intuition discriminate).
  split; [exact H|].
  destruct (execute_dispatch "lsh" 2 (start "" world0)) as [_ D].
  split.
  - apply (D "Echo" (argv_of ["hi"])). exact H.
  - apply (D "echo" (argv_of ["hi"])). reflexivity.
Defined.

Lemma builtins_continue_exit_terminates_witness :
  main "lsh" 1 (start ("exit now" ++ nl ++ "echo never") world0)
  = Ret EXIT_SUCCESS (mkProc "echo never" "> " "" world0)
  /\ exists s', lsh_cd "lsh" (argv_of ["cd"; "/tmp"]) (start "" world0) = Ret 1%Z s'.
Proof.
  destruct (builtins_continue_exit_terminates (OS := world) "lsh") as [B [_ L]].
  split.
  - refine (proj1 (proj2 (L 0 (start ("exit now" ++ nl ++ "echo never") world0)
                            "exit now" (mkProc "echo never" "> " "" world0)
                            [Some "now"; None] (mkProc "echo never" "> " "" world0)
                            _ _))).
    + vm_compute. reflexivity.
    + vm_compute. reflexivity.
  - apply (B 4 "cd"); [reflexivity|discriminate].
Defined.

Lemma eof_exits_with_success_witness :
  exists s',
    main "lsh" 1 (start "" world0) = Exit EXIT_SUCCESS s'
    /\ stdout s' = "> " /\ stderr s' = "".
Proof.
  destruct (eof_exits_with_success (P := posix) "lsh" (start "" world0) eq_refl eq_refl)
    as [_ H].
  destruct (H 0) as [s' [_ [M [_ [Hout Herr]]]]].
  exists s'. split; [exact M|]. split; assumption.
Defined.

Lemma cd_failures_witness :
  fst (sys_chdir "/nope" world0) <> 0%Z
  /\ exists s',
       lsh_cd "lsh" (argv_of ["cd"; "/nope"]) (start "" world0) = Ret 1%Z s'
       /\ stderr s' = "lsh: No such file or directory" ++ nl
       /\ os_cwd (os s') = "/".
Proof.
  assert (H : fst (sys_chdir "/nope" world0) <> 0%Z) by (vm_compute; discriminate).
  split; [exact H|].
  destruct (cd_failures "lsh" "cd" (start "" world0)) as [_ F].
  destruct (F "/nope" [] H) as [s' [R [Herr [_ Hcwd]]]].
  exists s'. split; [exact R|]. split; [|exact Hcwd].
  rewrite Herr. vm_compute in R. injection R as <-. vm_compute. reflexivity.
Defined.

Lemma launch_waits_for_the_end_witness :
  (exists s', lsh_launch "lsh" 1 (argv_of ["cat"]) (start "" world_stop_exit)
              = Running s')
  /\ (exists s', lsh_launch "lsh" 2 (argv_of ["cat"]) (start "" world_stop_exit)
                 = Ret 1%Z s' /\ t_wait (os s') = [])
  /\ (exists s', lsh_launch "lsh" 2 (argv_of ["cat"]) (start "" world_no_fork)
                 = Ret 1%Z s'
                 /\ stderr s' = "lsh: Resource temporarily unavailable" ++ nl).
Proof.
  assert (Hstop : stops_before 1 7 world_stop_exit).
  { intros k Hk. exists 4991%Z. destruct k; [split; reflexivity|lia]. }
  assert (Hend : ends_at 1 7 world_stop_exit).
  { exists 768%Z. split; [reflexivity|left; reflexivity]. }
  split; [|split].
  - destruct (launch_waits_for_the_end (P := posix) "lsh" 1 (argv_of ["cat"])
                (start "" world_stop_exit)) as [_ [W _]].
    destruct (W eq_refl 1 Hstop) as [R _].
    eexists. apply R. lia.
  - destruct (launch_waits_for_the_end (P := posix) "lsh" 2 (argv_of ["cat"])
                (start "" world_stop_exit)) as [_ [W _]].
    destruct (W eq_refl 1 Hstop) as [_ R].
    eexists. split; [apply R; [exact Hend|lia]|reflexivity].
  - destruct (launch_waits_for_the_end (P := posix) "lsh" 2 (argv_of ["cat"])
                (start "" world_no_fork)) as [F _].
    destruct (F eq_refl) as [R E].
    eexists. split; [exact R|exact E].
Defined.

Lemma split_line_maximal_runs_witness :
  memory_suffices (P := posix)
  /\ exists s',
       lsh_split_line "lsh" ("  ls " ++ String TAB "-l  /tmp ") (start "" world0)
       = Ret [Some "ls"; Some "-l"; Some "/tmp"; None] s'.
Proof.
  split; [exact toy_memory_suffices|].
  destruct (split_line_maximal_runs "lsh"
              ("  ls " ++ String TAB "-l  /tmp ") (start "" world0))
    as [_ [_ H]].
  destruct (H toy_memory_suffices) as [tokens [s' [R _]]].
  exists s'. vm_compute in R. injection R as _ Hs. subst s'.
  vm_compute. reflexivity.
Defined.

Lemma split_join_round_trip_witness :
  memory_suffices (P := posix)
  /\ exists tokens s',
       lsh_split_line "lsh" ("  ls " ++ String TAB "-l  /tmp ") (start "" world0)
       = Ret (argv_of tokens) s'
       /\ ws_equal (join tokens) ("  ls " ++ String TAB "-l  /tmp ")
       /\ exists s3,
            lsh_split_line "lsh" (join tokens) (start "" world0)
            = Ret (argv_of tokens) s3.
Proof.
  split; [exact toy_memory_suffices|].
  destruct (split_join_round_trip "lsh"
              ("  ls " ++ String TAB "-l  /tmp ") (start "" world0)
              toy_memory_suffices) as [tokens [s' [R [E A]]]].
  exists tokens, s'. split; [exact R|]. split; [exact E|]. apply A.
Defined.

(** [echo a b c] at the prompt: a space precedes the newline. *)
Example echo_a_b_c :
  exists s',
    main "lsh" 2 (start ("echo a b c" ++ nl) world0) = Exit EXIT_SUCCESS s'
    /\ stdout s' = "> a b c " ++ nl ++ "> "
    /\ stderr s' = "".
Proof. eexists. split; [vm_compute; reflexivity|split; reflexivity]. Qed.

(** [pwd] in a directory that is gone: [getcwd] fails, the label and the
    content of the buffer go to standard output, nothing to the error
    stream. *)
Example pwd_in_removed_directory :
  fst (sys_getcwd 1024 world_gone) = None
  /\ lsh_pwd (argv_of ["pwd"]) (start "" world_gone)
     = Ret 1%Z (mkProc "" ("Current working dir: ?" ++ nl) ""
                  (set_errno "No such file or directory" world_gone)).
Proof. split; reflexivity. Qed.

End Sessions.

(** * Further properties of the program

    The rest of the program, function by function: the line reader beyond
    the end of input, the growth of the two buffers, [ls], [mkdir] and
    [help], the child side of the launcher, failures of [waitpid], and the
    loop as a whole. *)

(** ** Vocabulary *)

(** No newline in [s]. *)
Definition no_lf (s : string) : Prop :=
  str_all (fun c => negb (Ascii.eqb c LF)) s = true.

(** [n] copies of [unit], one after the other. *)
Fixpoint repeat_str (unit : string) (n : nat) : string :=
  match n with
  | O => ""
  | S n' => unit ++ repeat_str unit n'
  end.

(** What [lsh_ls] writes for the entries of a directory. *)
Fixpoint ls_text (entries : list string) : string :=
  match entries with
  | [] => ""
  | d_name :: rest => (d_name ++ nl) ++ ls_text rest
  end.

(** The lines of [lsh_help] for a list of names. *)
Fixpoint help_text (names : list string) : string :=
  match names with
  | [] => ""
  | name :: rest => ("  " ++ name ++ nl) ++ help_text rest
  end.

(** The largest [int]. *)
Definition INT_MAX : Z := 2147483647.

(** The counters of the line reader are [int]s: they stay in range while
    [n] characters are read when the capacity reached after them, at most
    [n] and one increment more, is no more than [INT_MAX]. *)
Definition in_int_range (n : nat) : Prop :=
  (Z.of_nat n + Z.of_nat LSH_RL_BUFSIZE <= INT_MAX)%Z.

Section More_vocabulary.

Context {OS : Type} {P : Posix OS}.

Variable tag : string.

Local Abbreviation state := (@proc OS).

(** No request for at most [INT_MAX] bytes is refused. *)
Definition int_memory_suffices : Prop :=
  forall n (w : OS),
    (Z.of_nat n <= INT_MAX)%Z ->
    fst (sys_malloc n w) = true /\ fst (sys_realloc n w) = true.

(** The state of the system after the calls of [realloc] the line reader
    makes while it stores [chars], from [position] and capacity
    [bufsize]. *)
Fixpoint os_after_reading (chars : string) (position bufsize : nat) (w : OS) : OS :=
  match chars with
  | EmptyString => w
  | String _ chars' =>
      if (bufsize <=? S position)%nat
      then os_after_reading chars' (S position) (bufsize + LSH_RL_BUFSIZE)
             (snd (sys_realloc (bufsize + LSH_RL_BUFSIZE) w))
      else os_after_reading chars' (S position) bufsize w
  end.

(** The first [n] calls of [waitpid] for [pid] fail or report a status
    that is neither an exit nor a death by signal. *)
Definition idle_before (n : nat) (pid : Z) (w : OS) : Prop :=
  forall k, k < n ->
    match report k pid w with
    | None => True
    | Some st => WIFEXITED st = false /\ WIFSIGNALED st = false
    end.

(** [exit_told s code s']: what an exit with [code] in state [s'] has
    written since [s]: nothing to standard output, and to the error
    stream nothing when the status is [EXIT_SUCCESS] and, when it is
    [EXIT_FAILURE], exactly one line, the name of the shell before either
    [allocation error] or the message of the system for the error at
    hand. *)
Definition exit_told (s : state) (code : Z) (s' : state) : Prop :=
  stdout s' = stdout s
  /\ ((code = EXIT_SUCCESS /\ stderr s' = stderr s)
      \/ (code = EXIT_FAILURE
          /\ exists message,
               stderr s' = stderr s ++ tag ++ ": " ++ message ++ nl
               /\ (message = "allocation error"
                   \/ message = sys_strerror (os s')))).

(** [loop_reaches s s0]: the loop started in [s] comes to the start of an
    iteration in [s0], every iteration before it having read a line, split
    it and run a command that returned a result other than 0. *)
Inductive loop_reaches : state -> state -> Prop :=
| reaches_start (s : state) : loop_reaches s s
| reaches_next (s : state) (fuel : nat) (line : string) (s1 : state)
    (args : argv) (s2 : state) (status : Z) (s3 s0 : state) :
    lsh_read_line tag (printf "> " s) = Ret line s1 ->
    lsh_split_line tag line s1 = Ret args s2 ->
    lsh_execute tag fuel args s2 = Ret status s3 ->
    status <> 0%Z ->
    loop_reaches s3 s0 ->
    loop_reaches s s0.

End More_vocabulary.

(** A system like [Toy] in which [realloc] always fails. *)

Module Tight.

Definition realloc (n : nat) (w : Toy.world) : bool * Toy.world :=
  (false, Toy.set_errno "Cannot allocate memory" w).

Definition posix : Posix Toy.world := {|
  sys_malloc := Toy.malloc;
  sys_realloc := realloc;
  sizeof_char_p := 8;
  os_cwd := Toy.t_cwd;
  sys_getcwd := Toy.getcwd;
  sys_chdir := Toy.chdir;
  sys_mkdir := Toy.mkdir;
  sys_opendir := Toy.opendir;
  sys_strerror := Toy.t_errno;
  uninit_str := fun _ => "?";
  uninit_int := fun _ => 127%Z;
  sys_fork := fun w => (Toy.t_fork w, w);
  sys_execvp := Toy.execvp;
  sys_waitpid := Toy.waitpid;
  WUNTRACED := 2%Z;
  WIFEXITED := Toy.wifexited;
  WIFSIGNALED := Toy.wifsignaled;
  WIFSTOPPED := Toy.wifstopped;
  getcwd_cwd := Toy.getcwd_reports_cwd;
  chdir_failure := Toy.chdir_keeps_cwd;
  stopped_not_terminal := Toy.stopped_excludes_end
|}.

End Tight.

(** ** The line reader *)

Section Reader.

Context {OS : Type} {P : Posix OS}.

Variable tag : string.

Local Abbreviation state := (@proc OS).

Lemma no_lf_cons (c : ascii) (line : string) :
  no_lf (String c line) -> Ascii.eqb c LF = false /\ no_lf line.
Proof.
  unfold no_lf; simpl. intros H. apply andb_true_iff in H as [Hc H].
  apply negb_true_iff in Hc. auto.
Qed.

Lemma rl_bufsize_value : Z.of_nat LSH_RL_BUFSIZE = 1024%Z.
Proof. vm_compute. reflexivity. Qed.

Lemma memory_suffices_int : memory_suffices (P := P) -> int_memory_suffices (P := P).
Proof. intros H n w _. apply H. Qed.

Lemma read_loop_line (line rest buffer : string) (position bufsize : nat) (s : state) :
  int_memory_suffices (P := P) -> no_lf line ->
  in_int_range (position + String.length line) ->
  read_loop tag (line ++ String LF rest) buffer position bufsize s
  = Ret (buffer ++ line)
      (set_stdin rest (set_os (os_after_reading line position bufsize (os s)) s)).
Proof.
  intros Hmem. revert buffer position bufsize s.
  induction line as [|c line IH]; intros buffer position bufsize s Hline Hrange.
  - cbn [append read_loop os_after_reading]. rewrite Ascii.eqb_refl, append_nil_r.
    destruct s; reflexivity.
  - apply no_lf_cons in Hline as [Hc Hline].
    unfold in_int_range in Hrange. rewrite rl_bufsize_value in Hrange.
    cbn [String.length] in Hrange.
    cbn [append read_loop os_after_reading]. rewrite Hc.
    replace (buffer ++ String c line) with ((buffer ++ String c "") ++ line)
      by (now rewrite append_assoc).
    destruct (Nat.leb_spec bufsize (S position)) as [Hle|Hgt].
    + unfold syscall.
      assert (Hreq : (Z.of_nat (bufsize + LSH_RL_BUFSIZE) <= INT_MAX)%Z)
        by (rewrite Nat2Z.inj_add, rl_bufsize_value; lia).
      pose proof (proj2 (Hmem _ (os s) Hreq)) as M.
      destruct (sys_realloc _ _) as [ok w]; simpl in M; subst ok.
      rewrite IH by (auto; unfold in_int_range; rewrite rl_bufsize_value; lia).
      reflexivity.
    + rewrite IH by (auto; unfold in_int_range; rewrite rl_bufsize_value; lia).
      reflexivity.
Qed.

Lemma read_loop_eof (input buffer : string) (position bufsize : nat) (s : state) :
  int_memory_suffices (P := P) -> no_lf input ->
  in_int_range (position + String.length input) ->
  read_loop tag input buffer position bufsize s
  = Exit EXIT_SUCCESS
      (set_stdin "" (set_os (os_after_reading input position bufsize (os s)) s)).
Proof.
  intros Hmem. revert buffer position bufsize s.
  induction input as [|c input IH]; intros buffer position bufsize s Hin Hrange.
  - cbn [read_loop os_after_reading]. destruct s; reflexivity.
  - apply no_lf_cons in Hin as [Hc Hin].
    unfold in_int_range in Hrange. rewrite rl_bufsize_value in Hrange.
    cbn [String.length] in Hrange.
    cbn [read_loop os_after_reading]. rewrite Hc.
    destruct (Nat.leb_spec bufsize (S position)) as [Hle|Hgt].
    + unfold syscall.
      assert (Hreq : (Z.of_nat (bufsize + LSH_RL_BUFSIZE) <= INT_MAX)%Z)
        by (rewrite Nat2Z.inj_add, rl_bufsize_value; lia).
      pose proof (proj2 (Hmem _ (os s) Hreq)) as M.
      destruct (sys_realloc _ _) as [ok w]; simpl in M; subst ok.
      rewrite IH by (auto; unfold in_int_range; rewrite rl_bufsize_value; lia).
      reflexivity.
    + rewrite IH by (auto; unfold in_int_range; rewrite rl_bufsize_value; lia).
      reflexivity.
Qed.

Lemma read_line_start (s : state) :
  int_memory_suffices (P := P) ->
  lsh_read_line tag s
  = read_loop tag (stdin s) "" 0 LSH_RL_BUFSIZE
      (set_os (snd (sys_malloc (1 * LSH_RL_BUFSIZE) (os s))) s).
Proof.
  intros Hmem. unfold lsh_read_line, syscall.
  assert (Hreq : (Z.of_nat (1 * LSH_RL_BUFSIZE) <= INT_MAX)%Z)
    by (vm_compute; discriminate).
  pose proof (proj1 (Hmem _ (os s) Hreq)) as M.
  destruct (sys_malloc _ _) as [ok w]; simpl in M; subst ok. reflexivity.
Qed.

Lemma read_line_line (line rest : string) (s : state) :
  int_memory_suffices (P := P) -> no_lf line ->
  in_int_range (String.length line) ->
  stdin s = line ++ String LF rest ->
  lsh_read_line tag s
  = Ret line
      (mkProc rest (stdout s) (stderr s)
         (os_after_reading line 0 LSH_RL_BUFSIZE
            (snd (sys_malloc (1 * LSH_RL_BUFSIZE) (os s))))).
Proof.
  intros Hmem Hline Hrange Hin.
  rewrite read_line_start by exact Hmem. cbn [set_os stdin]. rewrite Hin.
  rewrite read_loop_line by auto. reflexivity.
Qed.

(** X1.  When no request for memory within [int] is refused, the line
    reader returns exactly the characters before the first newline, for
    every line short enough for its [int] counters (fewer than
    2^31 - 1024 characters): it consumes them and the newline, leaves the
    rest of the input unread, writes nothing, and asks the system for
    nothing but its buffer and the growth of it, never for more than
    [INT_MAX] bytes. *)
Theorem read_line_returns_the_line (line rest : string) (s : state) :
  int_memory_suffices (P := P) -> no_lf line ->
  in_int_range (String.length line) ->
  stdin s = line ++ String LF rest ->
  lsh_read_line tag s
  = Ret line
      (mkProc rest (stdout s) (stderr s)
         (os_after_reading line 0 LSH_RL_BUFSIZE
            (snd (sys_malloc (1 * LSH_RL_BUFSIZE) (os s))))).
Proof.
  intros Hmem Hline Hrange Hin.
  rewrite read_line_start by exact Hmem. cbn [set_os stdin]. rewrite Hin.
  rewrite read_loop_line by auto. reflexivity.
Qed.

(** X2.  When no request for memory within [int] is refused and the input
    ends before any newline, after fewer than 2^31 - 1024 characters, the
    line reader calls [exit (EXIT_SUCCESS)]: the characters of the
    unfinished last line are consumed and dropped, no command is run for
    them, nothing is written, and the system is asked for nothing but the
    buffer and its growth. *)
Theorem read_line_drops_unfinished_line (s : state) :
  int_memory_suffices (P := P) -> no_lf (stdin s) ->
  in_int_range (String.length (stdin s)) ->
  lsh_read_line tag s
  = Exit EXIT_SUCCESS
      (mkProc "" (stdout s) (stderr s)
         (os_after_reading (stdin s) 0 LSH_RL_BUFSIZE
            (snd (sys_malloc (1 * LSH_RL_BUFSIZE) (os s))))).
Proof.
  intros Hmem Hin Hrange.
  rewrite read_line_start by exact Hmem.
  rewrite read_loop_eof by auto. reflexivity.
Qed.

Lemma read_loop_fits (line rest buffer : string) (position bufsize : nat) (s : state) :
  no_lf line -> position + String.length line < bufsize ->
  read_loop tag (line ++ String LF rest) buffer position bufsize s
  = Ret (buffer ++ line) (set_stdin rest s).
Proof.
  revert buffer position.
  induction line as [|c line IH]; intros buffer position Hline Hlen.
  - cbn [append read_loop]. now rewrite Ascii.eqb_refl, append_nil_r.
  - apply no_lf_cons in Hline as [Hc Hline]. simpl in Hlen.
    cbn [append read_loop]. rewrite Hc.
    replace (bufsize <=? S position)%nat with false
      by (symmetry; apply Nat.leb_gt; lia).
    rewrite IH by (auto; lia). now rewrite append_assoc.
Qed.

Lemma read_loop_overflow (k : nat) (input buffer : string) (position bufsize : nat)
  (s : state) :
  0 < k -> position + k = bufsize -> k <= String.length input ->
  no_lf (str_take k input) ->
  fst (sys_realloc (bufsize + LSH_RL_BUFSIZE) (os s)) = false ->
  read_loop tag input buffer position bufsize s
  = Exit EXIT_FAILURE
      (eprintf (tag ++ ": allocation error" ++ nl)
         (set_stdin (str_drop k input)
            (set_os (snd (sys_realloc (bufsize + LSH_RL_BUFSIZE) (os s))) s))).
Proof.
  revert input buffer position.
  induction k as [|k IH]; intros input buffer position Hk Hsum Hlen Hin Hfail; [lia|].
  destruct input as [|c input]; simpl in Hlen; [lia|].
  cbn [str_take] in Hin. apply no_lf_cons in Hin as [Hc Hin].
  cbn [read_loop]. rewrite Hc.
  destruct k as [|k].
  - replace (bufsize <=? S position)%nat with true
      by (symmetry; apply Nat.leb_le; lia).
    unfold syscall. destruct (sys_realloc _ _) as [ok w]; simpl in Hfail; subst ok.
    reflexivity.
  - replace (bufsize <=? S position)%nat with false
      by (symmetry; apply Nat.leb_gt; lia).
    rewrite (IH input); auto; lia.
Qed.

(** X3.  The buffer of the line reader grows when the line reaches 1024
    characters, and not before.  Once the buffer is allocated, a line of
    fewer than 1024 characters is returned without any further request for
    memory; when 1024 characters have come without a newline and the
    growth to 2048 is refused, the reader writes the allocation diagnostic
    and ends the process with [EXIT_FAILURE], having consumed exactly
    those 1024 characters. *)
Theorem read_line_grows_at_1024 (s : state) :
  fst (sys_malloc (1 * LSH_RL_BUFSIZE) (os s)) = true ->
  let s1 := set_os (snd (sys_malloc (1 * LSH_RL_BUFSIZE) (os s))) s in
  (forall line rest,
      no_lf line -> String.length line < LSH_RL_BUFSIZE ->
      stdin s = line ++ String LF rest ->
      lsh_read_line tag s = Ret line (set_stdin rest s1))
  /\ (LSH_RL_BUFSIZE <= String.length (stdin s) ->
      no_lf (str_take LSH_RL_BUFSIZE (stdin s)) ->
      fst (sys_realloc (LSH_RL_BUFSIZE + LSH_RL_BUFSIZE) (os s1)) = false ->
      exists s',
        lsh_read_line tag s = Exit EXIT_FAILURE s'
        /\ stdin s' = str_drop LSH_RL_BUFSIZE (stdin s)
        /\ stdout s' = stdout s
        /\ stderr s' = stderr s ++ tag ++ ": allocation error" ++ nl).
Proof.
  intros Hmalloc s1.
  assert (E : lsh_read_line tag s = read_loop tag (stdin s) "" 0 LSH_RL_BUFSIZE s1).
  { unfold lsh_read_line, syscall. subst s1.
    destruct (sys_malloc _ _) as [ok w]; simpl in Hmalloc; subst ok. reflexivity. }
  split.
  - intros line rest Hline Hlen Hin. rewrite E, Hin.
    apply read_loop_fits; auto.
  - intros Hlen Hin Hfail. rewrite E.
    rewrite (@read_loop_overflow LSH_RL_BUFSIZE (stdin s) "" 0 LSH_RL_BUFSIZE s1);
      auto; [|apply Nat.lt_0_succ].
    eexists. repeat split.
Qed.

End Reader.

(** ** [mkdir], [ls] and [help] *)

Section More_builtins.

Context {OS : Type} {P : Posix OS}.

Variable tag : string.

Local Abbreviation state := (@proc OS).

(** X4.  [mkdir] without an argument writes its usage line to the error
    stream and asks nothing of the system.  With an argument it calls
    [mkdir] once, with that path and mode 0755: when the call succeeds it
    writes nothing, when it fails it writes the system's message, prefixed
    by the name of the shell, to the error stream.  It returns 1 in all
    three cases. *)
Theorem mkdir_outcomes (cmd : string) (s : state) :
  lsh_mkdir tag (argv_of [cmd]) s
  = Ret 1%Z (eprintf (tag ++ ": expected argument to " ++ dq ++ "mkdir" ++ dq ++ nl) s)
  /\ (forall path words,
        let r := fst (sys_mkdir path 493 (os s)) in
        let s1 := set_os (snd (sys_mkdir path 493 (os s))) s in
        (r = 0%Z -> lsh_mkdir tag (argv_of (cmd :: path :: words)) s = Ret 1%Z s1)
        /\ (r <> 0%Z ->
            lsh_mkdir tag (argv_of (cmd :: path :: words)) s
            = Ret 1%Z (eprintf (tag ++ ": " ++ sys_strerror (os s1) ++ nl) s1))).
Proof.
  split; [reflexivity|].
  intros path words r s1. subst r s1.
  unfold lsh_mkdir, syscall; simpl.
  destruct (sys_mkdir path 493 (os s)) as [r w]; simpl.
  split.
  - intros ->. reflexivity.
  - intros Hr. apply Z.eqb_neq in Hr. rewrite Hr. reflexivity.
Qed.

Lemma ls_loop_text (entries : list string) (s : state) :
  ls_loop entries s = printf (ls_text entries) s.
Proof.
  revert s; induction entries as [|d_name entries IH]; intros s; simpl.
  - symmetry. apply printf_empty.
  - now rewrite IH, printf_printf.
Qed.

(** X5.  [ls] opens the directory [./] whatever its arguments.  When the
    directory opens it writes every name [readdir] yields, each followed
    by a newline, in the order they come and without leaving any out, and
    nothing to the error stream.  When it does not open, [ls] writes
    nothing to standard output and, on the error stream, the system's
    message after the words [Couldn't open the directory], without the
    name of the shell.  It returns 1 in both cases. *)
Theorem ls_lists_every_entry (args : argv) (s : state) :
  (forall entries,
      fst (sys_opendir "./" (os s)) = Some entries ->
      exists s',
        lsh_ls args s = Ret 1%Z s'
        /\ stdout s' = stdout s ++ ls_text entries
        /\ stderr s' = stderr s)
  /\ (fst (sys_opendir "./" (os s)) = None ->
      exists s',
        lsh_ls args s = Ret 1%Z s'
        /\ stdout s' = stdout s
        /\ stderr s' = stderr s ++ "Couldn't open the directory: "
                         ++ sys_strerror (os s') ++ nl).
Proof.
  unfold lsh_ls, syscall.
  destruct (sys_opendir "./" (os s)) as [dp w]; simpl. split.
  - intros entries ->. rewrite ls_loop_text. eexists. repeat split.
  - intros ->. eexists. repeat split.
Qed.

Lemma skipn_nth (i : nat) (l : list string) :
  i < List.length l -> skipn i l = nth i l "" :: skipn (S i) l.
Proof.
  revert i; induction l as [|a l IH]; intros i Hi; simpl in Hi; [lia|].
  destruct i as [|i]; [reflexivity|]. simpl. apply IH. lia.
Qed.

Lemma help_loop_text (k i : nat) (s : state) :
  i + k <= lsh_num_builtins ->
  help_loop k i s = printf (help_text (firstn k (skipn i builtin_str))) s.
Proof.
  revert i s; induction k as [|k IH]; intros i s Hk.
  - cbn [help_loop firstn help_text]. symmetry. apply printf_empty.
  - cbn [help_loop]. rewrite IH by lia.
    rewrite (@skipn_nth i builtin_str) by (unfold lsh_num_builtins in Hk; lia).
    cbn [firstn help_text]. now rewrite printf_printf.
Qed.

(** X6.  [help] does not look at its arguments and asks nothing of the
    system: it writes to standard output the three lines of its banner,
    then every name of the table of builtins, in the order of the table,
    each on a line of its own after two spaces, then its last line; it
    writes nothing to the error stream and returns 1. *)
Theorem help_lists_the_table (args : argv) (s : state) :
  lsh_help args s
  = Ret 1%Z
      (printf (("Stephen Brennan's LSH" ++ nl)
               ++ ("Type program names and arguments, and hit enter." ++ nl)
               ++ ("The following are built in:" ++ nl)
               ++ help_text builtin_str
               ++ ("Use the man command for information on other programs." ++ nl))
         s).
Proof.
  unfold lsh_help. rewrite help_loop_text by (simpl; lia).
  change (skipn 0 builtin_str) with builtin_str.
  unfold lsh_num_builtins. rewrite firstn_all.
  rewrite !printf_printf, !append_assoc. reflexivity.
Qed.

(** ** The launcher *)

Lemma argv_strings_argv_of (tokens : list string) :
  argv_strings (argv_of tokens) = tokens.
Proof. induction tokens as [|t tokens IH]; simpl; [reflexivity|]. now f_equal. Qed.

(** X7.  In the child, where [fork] returns 0, the launcher never returns
    to the loop and never waits.  It calls [execvp] with the first token as
    the file and the tokens of the vector, unchanged, as the arguments;
    either the program takes the place of the shell, or [execvp] fails
    and the child writes the system's message, prefixed by the name of the
    shell, to the error stream and ends with [EXIT_FAILURE]. *)
Theorem launch_in_the_child (fuel : nat) (cmd : string) (words : list string)
  (s : state) :
  fst (sys_fork (os s)) = 0%Z ->
  let s1 := set_os (snd (sys_fork (os s))) s in
  lsh_launch tag fuel (argv_of (cmd :: words)) s
  = match sys_execvp cmd (cmd :: words) (os s1) with
    | None => Exec s1
    | Some w =>
        Exit EXIT_FAILURE
          (eprintf (tag ++ ": " ++ sys_strerror w ++ nl) (set_os w s1))
    end.
Proof.
  intros Hpid s1. subst s1. unfold lsh_launch, syscall.
  destruct (sys_fork (os s)) as [pid w]; simpl in Hpid; subst pid.
  cbn [Z.eqb nth_error argv_of map app snd].
  change (Some cmd :: (map Some words ++ [None])%list) with (argv_of (cmd :: words)).
  rewrite argv_strings_argv_of. reflexivity.
Qed.

Lemma idle_before_next (n : nat) (pid : Z) (w : OS) :
  idle_before (S n) pid w ->
  idle_before n pid (snd (sys_waitpid pid WUNTRACED w)).
Proof. intros H k Hk. apply (H (S k)). lia. Qed.

Lemma wait_loop_idle (fuel n : nat) (pid status : Z) (s : state) :
  WIFEXITED status = false -> WIFSIGNALED status = false ->
  idle_before n pid (os s) -> fuel <= n ->
  wait_loop fuel pid status s = Running (set_os (os_after_waits fuel pid (os s)) s).
Proof.
  revert n status s; induction fuel as [|fuel IH]; intros n status s He Hs Hidle Hle.
  - destruct s; reflexivity.
  - destruct n as [|n]; [lia|].
    pose proof (Hidle 0 ltac:(lia)) as H0. unfold report in H0; simpl in H0.
    pose proof (idle_before_next Hidle) as Hnext.
    cbn [wait_loop os_after_waits]. unfold syscall.
    destruct (sys_waitpid pid WUNTRACED (os s)) as [[st|] w]; simpl in H0, Hnext.
    + destruct H0 as [He' Hs']. rewrite He', Hs'. cbn [negb andb].
      now rewrite (IH n st (set_os w s)) by (auto; lia).
    + rewrite He, Hs. cbn [negb andb].
      now rewrite (IH n status (set_os w s)) by (auto; lia).
Qed.

(** X8.  A call of [waitpid] that fails does not end the wait.  In the
    parent, once a first call has reported a status, the launcher has not
    returned as long as every call so far either failed or reported a
    status that is neither an exit nor a death by signal: it goes on
    calling [waitpid]. *)
Theorem launch_waits_through_failures (fuel : nat) (args : argv) (s : state) :
  let pid := fst (sys_fork (os s)) in
  let s1 := set_os (snd (sys_fork (os s))) s in
  (0 < pid)%Z ->
  forall n,
    report 0 pid (os s1) <> None -> idle_before n pid (os s1) -> fuel <= n ->
    lsh_launch tag fuel args s
    = Running (set_os (os_after_waits fuel pid (os s1)) s1).
Proof.
  intros pid s1 Hpos n Hfirst Hidle Hle.
  assert (E : lsh_launch tag fuel args s
              = bind (wait_loop fuel pid (uninit_int (os s)) s1)
                  (fun _ s => Ret 1%Z s)).
  { unfold lsh_launch, syscall. subst pid s1.
    destruct (sys_fork (os s)) as [pid w]; simpl in *.
    replace (pid =? 0)%Z with false by (symmetry; apply Z.eqb_neq; lia).
    replace (pid <? 0)%Z with false by (symmetry; apply Z.ltb_ge; lia).
    reflexivity. }
  rewrite E. clear E. clearbody s1 pid. destruct fuel as [|fuel].
  - destruct s1; reflexivity.
  - destruct n as [|n]; [lia|].
    pose proof (Hidle 0 ltac:(lia)) as H0. unfold report in H0, Hfirst.
    simpl in H0, Hfirst.
    pose proof (idle_before_next Hidle) as Hnext.
    cbn [wait_loop os_after_waits]. unfold syscall.
    destruct (sys_waitpid pid WUNTRACED (os s1)) as [[st|] w]; simpl in *;
      [|congruence].
    destruct H0 as [He Hs]. rewrite He, Hs. cbn [negb andb].
    rewrite (@wait_loop_idle fuel n pid st (set_os w s1)) by (auto; lia).
    reflexivity.
Qed.

End More_builtins.

(** ** The tokenizer *)

Lemma loop_tokens_exist (n : nat) (s : string) :
  String.length s <= n ->
  exists tokens,
    loop_tokens (fst (strtok_r s LSH_TOK_DELIM)) (snd (strtok_r s LSH_TOK_DELIM)) tokens.
Proof.
  revert s; induction n as [|n IH]; intros s Hn;
    pose proof (strtok_r_length s LSH_TOK_DELIM) as Hlen;
    destruct (strtok_r s LSH_TOK_DELIM) as [[t|] save] eqn:E; simpl in *;
    try (exists []; reflexivity); try lia.
  destruct (IH save) as [tokens H]; [lia|].
  exists (t :: tokens), tokens. split; [reflexivity|]. now apply strtok_r_runs.
Qed.

Lemma Runs_loop_tokens (s : string) (tokens : list string) :
  Runs (c_str s) tokens ->
  loop_tokens (fst (strtok_r s LSH_TOK_DELIM)) (snd (strtok_r s LSH_TOK_DELIM)) tokens.
Proof.
  intros H. destruct (loop_tokens_exist s (le_n _)) as [found Hf].
  now rewrite (Runs_unique H (@strtok_r_runs s found Hf)).
Qed.

Lemma Runs_delims_app (d l : string) (tokens : list string) :
  delims d -> Runs l tokens -> Runs (d ++ l) tokens.
Proof.
  unfold delims. induction d as [|c d IH]; simpl; intros Hd H; [exact H|].
  apply andb_true_iff in Hd as [Hc Hd]. apply Runs_delim_cons; auto.
Qed.

Lemma at_break_app (c : ascii) (rest x : string) :
  is_delim c = true -> at_break rest = true -> at_break (rest ++ String c x) = true.
Proof. destruct rest; simpl; auto. Qed.

(** The runs of two lines put together with a delimiter between them. *)
Lemma Runs_app (c : ascii) (l1 l2 : string) (t1 t2 : list string) :
  is_delim c = true -> Runs l1 t1 -> Runs l2 t2 ->
  Runs (l1 ++ String c l2) (t1 ++ t2).
Proof.
  intros Hc H1 H2. induction H1 as [d Hd | d t rest tokens Hd Ht Hb Hr IH].
  - apply Runs_delims_app; [exact Hd|]. now apply Runs_delim_cons.
  - rewrite !append_assoc. simpl. apply Runs_cons; auto. now apply at_break_app.
Qed.

Lemma c_str_app (a b : string) : nul_free a -> c_str (a ++ b) = a ++ c_str b.
Proof.
  unfold nul_free. induction a as [|c a IH]; simpl; [reflexivity|].
  intros H. apply andb_true_iff in H as [Hc H]. apply negb_true_iff in Hc.
  now rewrite Hc, IH.
Qed.

Section More_tokenizer.

Context {OS : Type} {P : Posix OS}.

Variable tag : string.

Local Abbreviation state := (@proc OS).

Lemma split_loop_fits (token : option string) (save : string)
  (acc : list string) (position bufsize : nat) (s : state) :
  forall rest,
    loop_tokens token save rest -> position + List.length rest < bufsize ->
    split_loop tag token save acc position bufsize s = Ret (argv_of (acc ++ rest)) s.
Proof.
  funelim (split_loop tag token save acc position bufsize s); intros rest Hrest Hlen.
  - destruct Hrest as [rest' [-> Hruns]]. simpl in Hlen.
    replace (bufsize <=? S position)%nat with false
      by (symmetry; apply Nat.leb_gt; lia).
    rewrite (H0 rest') by (auto using Runs_loop_tokens; lia).
    now rewrite <- app_assoc.
  - simpl in Hrest. subst rest. now rewrite app_nil_r.
Qed.

Lemma split_loop_overflow (token : option string) (save : string)
  (acc : list string) (position bufsize : nat) (s : state) :
  forall rest,
    loop_tokens token save rest ->
    position < bufsize -> bufsize <= position + List.length rest ->
    fst (sys_realloc ((bufsize + LSH_TOK_BUFSIZE) * sizeof_char_p) (os s)) = false ->
    split_loop tag token save acc position bufsize s
    = Exit EXIT_FAILURE
        (eprintf (tag ++ ": allocation error" ++ nl)
           (set_os (snd (sys_realloc ((bufsize + LSH_TOK_BUFSIZE) * sizeof_char_p)
                           (os s))) s)).
Proof.
  funelim (split_loop tag token save acc position bufsize s);
    intros rest Hrest Hpos Hlen Hfail.
  - destruct Hrest as [rest' [-> Hruns]]. simpl in Hlen.
    destruct (Nat.leb_spec bufsize (S position)).
    + clear H H0 Heqcall. unfold syscall.
      destruct (sys_realloc _ _) as [ok w]; simpl in Hfail; subst ok.
      reflexivity.
    + apply (H0 rest'); auto using Runs_loop_tokens; lia.
  - simpl in Hrest. subst rest. simpl in Hlen. lia.
Qed.

(** X9.  The vector of the tokenizer grows when the 64th token is stored,
    and not before.  Once the vector is allocated, a line of fewer than 64
    tokens is split without any further request for memory; for a line of
    64 tokens or more, when the growth to 128 slots is refused, the
    tokenizer writes the allocation diagnostic and ends the process with
    [EXIT_FAILURE]. *)
Theorem split_line_grows_at_64 (line : string) (tokens : list string) (s : state) :
  Runs (c_str line) tokens ->
  fst (sys_malloc (LSH_TOK_BUFSIZE * sizeof_char_p) (os s)) = true ->
  let s1 := set_os (snd (sys_malloc (LSH_TOK_BUFSIZE * sizeof_char_p) (os s))) s in
  (List.length tokens < LSH_TOK_BUFSIZE ->
     lsh_split_line tag line s = Ret (argv_of tokens) s1)
  /\ (LSH_TOK_BUFSIZE <= List.length tokens ->
      fst (sys_realloc ((LSH_TOK_BUFSIZE + LSH_TOK_BUFSIZE) * sizeof_char_p) (os s1))
      = false ->
      exists s',
        lsh_split_line tag line s = Exit EXIT_FAILURE s'
        /\ stdout s' = stdout s
        /\ stderr s' = stderr s ++ tag ++ ": allocation error" ++ nl).
Proof.
  intros Hruns Hmalloc s1.
  apply Runs_loop_tokens in Hruns.
  assert (E : lsh_split_line tag line s
              = split_loop tag (fst (strtok_r line LSH_TOK_DELIM))
                  (snd (strtok_r line LSH_TOK_DELIM)) [] 0 LSH_TOK_BUFSIZE s1).
  { unfold lsh_split_line, syscall. subst s1.
    destruct (sys_malloc _ _) as [ok w]; simpl in Hmalloc; subst ok.
    destruct (strtok_r line LSH_TOK_DELIM); reflexivity. }
  rewrite E. split.
  - intros Hlen. rewrite split_loop_fits with (rest := tokens); auto.
  - intros Hlen Hfail.
    rewrite split_loop_overflow with (rest := tokens); auto;
      [|apply Nat.lt_0_succ].
    eexists. repeat split.
Qed.

(** X10.  Tokenizing composes: with memory granted, and [a] free of NUL,
    the tokens of [a], a delimiter and [b] put together are the tokens of
    [a] followed by the tokens of [b]. *)
Theorem split_line_of_two_parts (a b : string) (c : ascii) (s : state) :
  memory_suffices (P := P) -> nul_free a -> is_delim c = true ->
  exists ta tb s1 s2 s3,
    lsh_split_line tag a s = Ret (argv_of ta) s1
    /\ lsh_split_line tag b s = Ret (argv_of tb) s2
    /\ lsh_split_line tag (a ++ String c b) s = Ret (argv_of (ta ++ tb)) s3.
Proof.
  intros Hmem Ha Hc.
  destruct (split_line_returns tag a s Hmem) as [ta [s1 [Ra Ha']]].
  destruct (split_line_returns tag b s Hmem) as [tb [s2 [Rb Hb']]].
  destruct (split_line_returns tag (a ++ String c b) s Hmem) as [tab [s3 [Rab Hab]]].
  exists ta, tb, s1, s2, s3. split; [exact Ra|]. split; [exact Rb|].
  rewrite Rab. do 2 f_equal.
  rewrite c_str_app in Hab by exact Ha. rewrite (c_str_id Ha) in Ha'.
  assert (Hnul : Ascii.eqb c NUL = false).
  { destruct (Ascii.eqb_spec c NUL) as [->|]; [discriminate Hc|reflexivity]. }
  simpl in Hab. rewrite Hnul in Hab.
  apply (Runs_unique Hab). now apply Runs_app.
Qed.

(** X11.  With memory granted, two lines have the same tokens exactly
    when they are equal up to whitespace: the tokenizer tells two lines
    apart by their words only, never by the amount or the kind of
    whitespace. *)
Theorem split_line_sees_words_only (a b : string) (s : state) :
  memory_suffices (P := P) ->
  exists ta tb s1 s2,
    lsh_split_line tag a s = Ret (argv_of ta) s1
    /\ lsh_split_line tag b s = Ret (argv_of tb) s2
    /\ (ws_equal (c_str a) (c_str b) <-> ta = tb).
Proof.
  intros Hmem.
  destruct (split_line_returns tag a s Hmem) as [ta [s1 [Ra Ha]]].
  destruct (split_line_returns tag b s Hmem) as [tb [s2 [Rb Hb]]].
  exists ta, tb, s1, s2. split; [exact Ra|]. split; [exact Rb|].
  unfold ws_equal, normalize.
  rewrite (proj1 (Runs_collapse Ha)), (proj1 (Runs_collapse Hb)).
  split; [|now intros ->].
  intros E.
  pose proof (join_Runs (Runs_words Ha)) as Ja.
  pose proof (join_Runs (Runs_words Hb)) as Jb.
  rewrite E in Ja. apply (Runs_unique Ja Jb).
Qed.

End More_tokenizer.

(** ** The loop *)

Lemma delims_nul_free (d : string) : delims d -> nul_free d.
Proof.
  unfold delims, nul_free. induction d as [|c d IH]; simpl; [reflexivity|].
  intros H. apply andb_true_iff in H as [Hc H]. rewrite IH by exact H.
  destruct (Ascii.eqb_spec c NUL) as [->|]; [discriminate Hc|reflexivity].
Qed.

Section More_loop.

Context {OS : Type} {P : Posix OS}.

Variable tag : string.

Local Abbreviation state := (@proc OS).

(** X12.  When no allocation is refused, a line that is empty or holds
    only whitespace, short enough for the [int] counters of the reader,
    runs no command: one iteration of the loop writes the prompt, consumes
    the line and its newline, writes nothing else, and asks the system for
    memory only (the buffer of the reader, its growth, and the vector of
    the tokenizer); the loop then goes on from exactly that state. *)
Theorem blank_line_prompts_again (fuel : nat) (line rest : string) (s : state) :
  memory_suffices (P := P) -> no_lf line -> delims line ->
  in_int_range (String.length line) ->
  stdin s = line ++ String LF rest ->
  lsh_loop tag (S fuel) s
  = lsh_loop tag fuel
      (mkProc rest (stdout s ++ "> ") (stderr s)
         (snd (sys_malloc (LSH_TOK_BUFSIZE * sizeof_char_p)
                 (os_after_reading line 0 LSH_RL_BUFSIZE
                    (snd (sys_malloc (1 * LSH_RL_BUFSIZE) (os s))))))).
Proof.
  intros Hmem Hline Hd Hrange Hin. cbn [lsh_loop].
  rewrite (read_line_line tag rest (printf "> " s) (memory_suffices_int Hmem)
             Hline Hrange Hin).
  cbn [bind printf stdin stdout stderr os].
  set (w1 := os_after_reading line 0 LSH_RL_BUFSIZE
               (snd (sys_malloc (1 * LSH_RL_BUFSIZE) (os s)))).
  assert (Hsplit : lsh_split_line tag line (mkProc rest (stdout s ++ "> ") (stderr s) w1)
                   = Ret (argv_of [])
                       (mkProc rest (stdout s ++ "> ") (stderr s)
                          (snd (sys_malloc (LSH_TOK_BUFSIZE * sizeof_char_p) w1)))).
  { clearbody w1. unfold lsh_split_line, syscall. cbn [os].
    pose proof (proj1 (Hmem (LSH_TOK_BUFSIZE * sizeof_char_p) w1)) as M.
    destruct (sys_malloc _ _) as [ok w]; simpl in M; subst ok. cbn [snd].
    assert (Hruns : Runs (c_str line) []).
    { rewrite (c_str_id (delims_nul_free Hd)). now apply Runs_nil. }
    apply Runs_loop_tokens in Hruns.
    destruct (strtok_r line LSH_TOK_DELIM) as [token save]; cbn [fst snd] in Hruns.
    rewrite split_loop_fits with (rest := []); auto. apply Nat.lt_0_succ. }
  rewrite Hsplit. reflexivity.
Qed.

Lemma exit_told_from (s t s' : state) (code : Z) :
  stdout s = stdout t -> stderr s = stderr t ->
  exit_told tag s code s' -> exit_told tag t code s'.
Proof. unfold exit_told. intros <- <-. auto. Qed.

Lemma allocation_error_told (s : state) :
  exit_told tag s EXIT_FAILURE (eprintf (tag ++ ": allocation error" ++ nl) s).
Proof.
  split; [reflexivity|]. right. split; [reflexivity|].
  exists "allocation error". split; [reflexivity|now left].
Qed.

Lemma read_loop_told (input buffer : string) (position bufsize : nat) (s : state) :
  match read_loop tag input buffer position bufsize s with
  | Ret _ s' => stdout s' = stdout s /\ stderr s' = stderr s
  | Exit code s' => exit_told tag s code s'
  | _ => False
  end.
Proof.
  revert buffer position bufsize s.
  induction input as [|c input IH]; intros buffer position bufsize s; cbn [read_loop].
  - split; [reflexivity|]. left. split; reflexivity.
  - destruct (Ascii.eqb c LF); [split; reflexivity|].
    destruct (bufsize <=? S position)%nat; [|apply IH].
    unfold syscall. destruct (sys_realloc _ _) as [[|] w].
    + specialize (IH (buffer ++ String c "") (S position)
                    (bufsize + LSH_RL_BUFSIZE) (set_os w s)).
      destruct (read_loop _ _ _ _ _ _); exact IH.
    + exact (allocation_error_told (set_stdin input (set_os w s))).
Qed.

Lemma read_line_told (s : state) :
  match lsh_read_line tag s with
  | Ret _ s' => stdout s' = stdout s /\ stderr s' = stderr s
  | Exit code s' => exit_told tag s code s'
  | _ => False
  end.
Proof.
  unfold lsh_read_line, syscall. destruct (sys_malloc _ _) as [[|] w].
  - exact (read_loop_told (stdin (set_os w s)) "" 0 LSH_RL_BUFSIZE (set_os w s)).
  - exact (allocation_error_told (set_os w s)).
Qed.

Lemma split_line_told (line : string) (s : state) :
  match lsh_split_line tag line s with
  | Ret args s' =>
      (exists tokens, args = argv_of tokens)
      /\ stdout s' = stdout s /\ stderr s' = stderr s
  | Exit code s' => exit_told tag s code s'
  | _ => False
  end.
Proof.
  pose proof (split_line_outcome tag line s) as H.
  destruct (lsh_split_line tag line s) as [args s'|code s'| | |]; simpl in H; auto.
  - destruct H as [[tokens [-> _]] [_ [Ho He]]]. eauto.
  - destruct H as [-> [Ho He]]. split; [exact Ho|]. right. split; [reflexivity|].
    exists "allocation error". split; [exact He|now left].
Qed.

Lemma wait_loop_returns_or_runs (fuel : nat) (pid status : Z) (s : state) :
  match wait_loop fuel pid status s with
  | Ret _ _ | Running _ => True
  | _ => False
  end.
Proof.
  revert status s; induction fuel as [|fuel IH]; intros status s; cbn [wait_loop];
    [exact I|].
  destruct (syscall _ s) as [r s']. destruct (negb _ && negb _); [apply IH|exact I].
Qed.

Lemma launch_told (fuel : nat) (file : string) (rest : argv) (s : state) :
  match lsh_launch tag fuel (Some file :: rest) s with
  | Exit code s' => exit_told tag s code s'
  | Fault => False
  | _ => True
  end.
Proof.
  unfold lsh_launch, syscall. destruct (sys_fork (os s)) as [pid w].
  destruct (pid =? 0)%Z.
  - cbn [nth_error]. destruct (sys_execvp _ _ _) as [w'|]; [|exact I].
    split; [reflexivity|]. right. split; [reflexivity|].
    exists (sys_strerror w'). split; [reflexivity|now right].
  - destruct (pid <? 0)%Z; [exact I|].
    pose proof (wait_loop_returns_or_runs fuel pid (uninit_int (os s)) (set_os w s)) as H.
    destruct (wait_loop _ _ _ _); simpl in *; tauto.
Qed.

Lemma builtin_returns (i : nat) (cmd : string) (words : list string) (s : state) :
  i < lsh_num_builtins ->
  exists v s',
    nth i (builtin_func tag) (fun _ _ => Fault) (argv_of (cmd :: words)) s = Ret v s'.
Proof.
  intros Hi. destruct i as [|[|[|[|[|[|[|i]]]]]]]; simpl in *.
  - eexists _, _. apply echo_prints.
  - destruct (pwd_returns (argv_of (cmd :: words)) s) as [s' [H _]]. eauto.
  - destruct (ls_returns (argv_of (cmd :: words)) s) as [s' H]. eauto.
  - destruct (mkdir_returns tag cmd words s) as [s' H]. eauto.
  - destruct (cd_returns tag cmd words s) as [s' H]. eauto.
  - eexists _, _. reflexivity.
  - eexists _, _. reflexivity.
  - unfold lsh_num_builtins in Hi; simpl in Hi. lia.
Qed.

Lemma execute_loop_told (fuel k i : nat) (cmd : string) (words : list string)
  (s : state) :
  i + k <= lsh_num_builtins ->
  match execute_loop tag fuel k i cmd (argv_of (cmd :: words)) s with
  | Exit code s' => exit_told tag s code s'
  | Fault => False
  | _ => True
  end.
Proof.
  revert i; induction k as [|k IH]; intros i Hk; cbn [execute_loop].
  - apply launch_told.
  - destruct (strcmp _ _ =? 0)%Z; [|apply IH; lia].
    destruct (@builtin_returns i cmd words s) as [v [s' H]]; [lia|].
    rewrite H. exact I.
Qed.

Lemma execute_told (fuel : nat) (tokens : list string) (s : state) :
  match lsh_execute tag fuel (argv_of tokens) s with
  | Exit code s' => exit_told tag s code s'
  | Fault => False
  | _ => True
  end.
Proof.
  destruct tokens as [|cmd words]; [exact I|].
  unfold lsh_execute. cbn [argv_of map app nth_error].
  apply (execute_loop_told fuel lsh_num_builtins 0 cmd words s). lia.
Qed.

Lemma loop_told (fuel : nat) (s : state) :
  match lsh_loop tag fuel s with
  | Exit code s' =>
      exists s0, loop_reaches tag s s0 /\ exit_told tag (printf "> " s0) code s'
  | Fault => False
  | _ => True
  end.
Proof.
  revert s; induction fuel as [|fuel IH]; intros s; cbn [lsh_loop]; [exact I|].
  pose proof (read_line_told (printf "> " s)) as H1.
  destruct (lsh_read_line tag (printf "> " s)) as [line s1|code s'| | |] eqn:R1;
    cbn [bind]; try contradiction.
  2: { exists s. split; [apply reaches_start|exact H1]. }
  destruct H1 as [O1 E1].
  pose proof (split_line_told line s1) as H2.
  destruct (lsh_split_line tag line s1) as [args s2|code s'| | |] eqn:R2;
    cbn [bind]; try contradiction.
  2: { exists s. split; [apply reaches_start|].
       revert H2. now apply exit_told_from. }
  destruct H2 as [[tokens ->] [O2 E2]].
  pose proof (execute_told (S fuel) tokens s2) as H3.
  destruct (lsh_execute tag (S fuel) (argv_of tokens) s2) as [status s3|code s'| | |]
    eqn:R3; cbn [bind]; try contradiction; try exact I.
  - destruct (status =? 0)%Z eqn:E; [exact I|]. apply Z.eqb_neq in E.
    specialize (IH s3).
    destruct (lsh_loop tag fuel s3) as [u sa|code sa|sa|sa|]; auto.
    destruct IH as [s0 [Hreach Htold]]. exists s0. split; [|exact Htold].
    exact (reaches_next s _ R1 R2 R3 E Hreach).
  - exists s. split; [apply reaches_start|].
    revert H3. apply exit_told_from; congruence.
Qed.

(** X13.  For every input within the range of the reader's [int]
    counters and whatever the system answers, the program never reads
    outside an argument vector and returns from [main] with
    [EXIT_SUCCESS] only; and when it ends by [exit], it does so in an
    iteration of the loop that has written its prompt and nothing else to
    standard output, and to the error stream nothing when the status is
    [EXIT_SUCCESS] and, when it is [EXIT_FAILURE], exactly one line: the
    name of the shell, a colon, and either [allocation error] or the
    message of the system for the error at hand. *)
Theorem main_is_accounted (fuel : nat) (s : state) :
  in_int_range (String.length (stdin s)) ->
  main tag fuel s <> Fault
  /\ (forall code s', main tag fuel s = Ret code s' -> code = EXIT_SUCCESS)
  /\ (forall code s',
        main tag fuel s = Exit code s' ->
        exists s0,
          loop_reaches tag s s0
          /\ stdout s' = stdout s0 ++ "> "
          /\ ((code = EXIT_SUCCESS /\ stderr s' = stderr s0)
              \/ (code = EXIT_FAILURE
                  /\ exists message,
                       stderr s' = stderr s0 ++ tag ++ ": " ++ message ++ nl
                       /\ (message = "allocation error"
                           \/ message = sys_strerror (os s'))))).
Proof.
  intros _. pose proof (loop_told fuel s) as H. unfold main.
  destruct (lsh_loop tag fuel s) as [[] s'|code s'| | |]; cbn [bind] in *;
    repeat split; try discriminate; try contradiction.
  - intros code s0 E. now injection E as <- _.
  - intros c s1 E. injection E as <- <-.
    destruct H as [s0 [Hreach Htold]]. exists s0. split; [exact Hreach|exact Htold].
Qed.

Lemma builtin_result (i : nat) (cmd : string) (words : list string) (s s' : state)
  (v : Z) :
  nth i (builtin_func tag) (fun _ _ => Fault) (argv_of (cmd :: words)) s = Ret v s' ->
  v = 1%Z \/ (v = 0%Z /\ i = 6 /\ s' = s).
Proof.
  destruct i as [|[|[|[|[|[|[|i]]]]]]]; cbn [nth builtin_func]; intros H.
  - rewrite echo_prints in H. left. congruence.
  - destruct (pwd_returns (argv_of (cmd :: words)) s) as [s0 [R _]]. left. congruence.
  - destruct (ls_returns (argv_of (cmd :: words)) s) as [s0 R]. left. congruence.
  - destruct (mkdir_returns tag cmd words s) as [s0 R]. left. congruence.
  - destruct (cd_returns tag cmd words s) as [s0 R]. left. congruence.
  - left. unfold lsh_help in H. congruence.
  - right. unfold lsh_exit in H. injection H as <- <-. auto.
  - destruct i; discriminate.
Qed.

Lemma execute_loop_result (fuel k i : nat) (cmd : string) (words : list string)
  (s s' : state) (v : Z) :
  execute_loop tag fuel k i cmd (argv_of (cmd :: words)) s = Ret v s' ->
  v = 1%Z \/ (v = 0%Z /\ cmd = "exit" /\ s' = s).
Proof.
  revert i; induction k as [|k IH]; intros i; cbn [execute_loop].
  - intros H. left. exact (launch_returns_one tag fuel _ s H).
  - destruct (strcmp _ _ =? 0)%Z eqn:E; [|apply IH].
    intros H. apply strcmp_eq in E.
    destruct (builtin_result i cmd words s H) as [->|[-> [-> ->]]]; [now left|].
    right. auto.
Qed.

(** X14.  Only [exit] ends the loop.  Whenever the dispatch of a vector of
    tokens returns, it returns 1, except for a vector whose first token is
    [exit], on which it returns 0 and has changed nothing; so the loop,
    which goes on while the result is not 0, is left by a command only
    when that command is [exit]. *)
Theorem only_exit_returns_zero (fuel : nat) (tokens : list string) (s s' : state)
  (v : Z) :
  lsh_execute tag fuel (argv_of tokens) s = Ret v s' ->
  v = 1%Z \/ (v = 0%Z /\ s' = s /\ exists words, tokens = "exit" :: words).
Proof.
  destruct tokens as [|cmd words].
  - intros H. left. unfold lsh_execute in H. simpl in H. congruence.
  - unfold lsh_execute. cbn [argv_of map app nth_error].
    intros H. apply (execute_loop_result fuel lsh_num_builtins 0 cmd words s) in H.
    destruct H as [->|[-> [-> ->]]]; [now left|]. right. eauto.
Qed.

End More_loop.

(** ** The further properties at work *)

Module More_sessions.

Import Toy.

(** The child side of a [fork]. *)
Definition world_child : world :=
  mkWorld "/" ("/" :: "/tmp" :: nil) "Success" 0 ("cat" :: nil) nil.

(** A child that is stopped once and of which nothing more is heard. *)
Definition world_stop_only : world :=
  mkWorld "/" ("/" :: "/tmp" :: nil) "Success" 7 ("cat" :: nil) (4991%Z :: nil).

Lemma toy_int_memory_suffices : int_memory_suffices (P := posix).
Proof. intros n w _; split; reflexivity. Defined.

Lemma read_line_returns_the_line_witness :
  int_memory_suffices (P := posix) /\ no_lf "ls -l"
  /\ in_int_range (String.length "ls -l")
  /\ lsh_read_line "lsh" (start ("ls -l" ++ nl ++ "pwd" ++ nl) world0)
     = Ret "ls -l" (mkProc ("pwd" ++ nl) "" "" world0).
Proof.
  assert (R : in_int_range (String.length "ls -l")) by (vm_compute; discriminate).
  split; [exact toy_int_memory_suffices|]. split; [reflexivity|].
  split; [exact R|].
  apply (read_line_returns_the_line "lsh" ("pwd" ++ nl)
           (start ("ls -l" ++ nl ++ "pwd" ++ nl) world0)
           toy_int_memory_suffices (line := "ls -l") eq_refl R eq_refl).
Defined.

Lemma read_line_drops_unfinished_line_witness :
  no_lf "ls -l" /\ in_int_range (String.length "ls -l")
  /\ lsh_read_line "lsh" (start "ls -l" world0)
     = Exit EXIT_SUCCESS (mkProc "" "" "" world0).
Proof.
  assert (R : in_int_range (String.length "ls -l")) by (vm_compute; discriminate).
  split; [reflexivity|]. split; [exact R|].
  apply (read_line_drops_unfinished_line "lsh" (start "ls -l" world0)
           toy_int_memory_suffices eq_refl R).
Defined.

Lemma read_line_grows_at_1024_witness :
  lsh_read_line (P := Tight.posix) "lsh" (start ("ls" ++ nl) world0)
  = Ret "ls" (start "" world0)
  /\ exists s',
       lsh_read_line (P := Tight.posix) "lsh"
         (start (repeat_str "a" 1024 ++ nl) world0)
       = Exit EXIT_FAILURE s'
       /\ stdin s' = nl
       /\ stderr s' = "lsh: allocation error" ++ nl.
Proof.
  split.
  - apply (proj1 (read_line_grows_at_1024 (P := Tight.posix) "lsh"
                    (start ("ls" ++ nl) world0) eq_refl) "ls" "");
      [reflexivity|apply Nat.ltb_lt; vm_compute; reflexivity|reflexivity].
  - destruct (proj2 (read_line_grows_at_1024 (P := Tight.posix) "lsh"
                       (start (repeat_str "a" 1024 ++ nl) world0) eq_refl))
      as [s' [R [Hin [_ Herr]]]].
    + apply Nat.leb_le. vm_compute. reflexivity.
    + vm_compute. reflexivity.
    + reflexivity.
    + exists s'. split; [exact R|]. split.
      * rewrite Hin. vm_compute. reflexivity.
      * exact Herr.
Defined.

Lemma mkdir_outcomes_witness :
  lsh_mkdir "lsh" (argv_of ["mkdir"; "/new"]) (start "" world0)
  = Ret 1%Z (start "" (snd (mkdir "/new" 493 world0)))
  /\ lsh_mkdir "lsh" (argv_of ["mkdir"; "/tmp"; "-p"]) (start "" world0)
     = Ret 1%Z (mkProc "" "" ("lsh: File exists" ++ nl)
                  (set_errno "File exists" world0)).
Proof.
  destruct (mkdir_outcomes (P := posix) "lsh" "mkdir" (start "" world0)) as [_ M].
  split.
  - apply (proj1 (M "/new" [])). reflexivity.
  - apply (proj2 (M "/tmp" ["-p"])). discriminate.
Defined.

Lemma ls_lists_every_entry_witness :
  (exists s', lsh_ls (argv_of ["ls"; "/tmp"]) (start "" world0) = Ret 1%Z s'
              /\ stdout s' = "." ++ nl ++ ".." ++ nl /\ stderr s' = "")
  /\ (exists s', lsh_ls (argv_of ["ls"]) (start "" world_gone) = Ret 1%Z s'
                 /\ stdout s' = ""
                 /\ stderr s' = "Couldn't open the directory: No such file or directory"
                                  ++ nl).
Proof.
  split.
  - apply (proj1 (ls_lists_every_entry (P := posix) (argv_of ["ls"; "/tmp"])
                    (start "" world0)) ["."; ".."]).
    reflexivity.
  - destruct (proj2 (ls_lists_every_entry (P := posix) (argv_of ["ls"])
                       (start "" world_gone)) eq_refl) as [s' [R [Hout Herr]]].
    exists s'. split; [exact R|]. split; [exact Hout|].
    rewrite Herr. vm_compute in R. injection R as <-. reflexivity.
Defined.

Lemma launch_in_the_child_witness :
  lsh_launch "lsh" 1 (argv_of ["cat"; "notes"]) (start "" world_child)
  = Exec (start "" world_child)
  /\ lsh_launch "lsh" 1 (argv_of ["doesnotexist123"]) (start "" world_child)
     = Exit EXIT_FAILURE
         (mkProc "" "" ("lsh: No such file or directory" ++ nl)
            (set_errno "No such file or directory" world_child)).
Proof.
  split.
  - apply (launch_in_the_child (P := posix) "lsh" 1 "cat" ["notes"]
             (start "" world_child) eq_refl).
  - apply (launch_in_the_child (P := posix) "lsh" 1 "doesnotexist123" []
             (start "" world_child) eq_refl).
Defined.

Lemma launch_waits_through_failures_witness :
  idle_before 3 7 world_stop_only
  /\ exists s',
       lsh_launch "lsh" 3 (argv_of ["cat"]) (start "" world_stop_only) = Running s'.
Proof.
  assert (H : idle_before 3 7 world_stop_only).
  { intros k Hk. destruct k as [|[|[|k]]]; [split; reflexivity|exact I|exact I|lia]. }
  split; [exact H|]. eexists.
  apply (launch_waits_through_failures (P := posix) "lsh" (fuel := 3)
           (argv_of ["cat"]) (start "" world_stop_only) eq_refl (n := 3));
    [discriminate|exact H|lia].
Defined.

Lemma words_a (n : nat) : Forall word (repeat "a" n).
Proof.
  apply Forall_forall. intros x Hx. apply repeat_spec in Hx. subst x.
  split; [discriminate|reflexivity].
Qed.

Lemma split_line_grows_at_64_witness :
  lsh_split_line (P := Tight.posix) "lsh" (join (repeat "a" 63)) (start "" world0)
  = Ret (argv_of (repeat "a" 63)) (start "" world0)
  /\ exists s',
       lsh_split_line (P := Tight.posix) "lsh" (join (repeat "a" 64)) (start "" world0)
       = Exit EXIT_FAILURE s'
       /\ stderr s' = "lsh: allocation error" ++ nl.
Proof.
  split.
  - apply (proj1 (split_line_grows_at_64 (P := Tight.posix) "lsh"
                    (join (repeat "a" 63)) (start "" world0)
                    (join_Runs (words_a 63)) eq_refl)).
    apply Nat.ltb_lt. vm_compute. reflexivity.
  - destruct (proj2 (split_line_grows_at_64 (P := Tight.posix) "lsh"
                       (join (repeat "a" 64)) (start "" world0)
                       (join_Runs (words_a 64)) eq_refl))
      as [s' [R [_ Herr]]].
    + apply Nat.leb_le. vm_compute. reflexivity.
    + reflexivity.
    + exists s'. split; [exact R|exact Herr].
Defined.

Lemma split_line_of_two_parts_witness :
  nul_free "ls" /\ is_delim TAB = true
  /\ exists ta tb s1 s2 s3,
       lsh_split_line "lsh" "ls" (start "" world0) = Ret (argv_of ta) s1
       /\ lsh_split_line "lsh" "-l  /tmp" (start "" world0) = Ret (argv_of tb) s2
       /\ lsh_split_line "lsh" ("ls" ++ String TAB "-l  /tmp") (start "" world0)
          = Ret (argv_of (ta ++ tb)) s3.
Proof.
  split; [reflexivity|]. split; [reflexivity|].
  apply (split_line_of_two_parts "lsh" "-l  /tmp" TAB (start "" world0)
           Sessions.toy_memory_suffices (a := "ls") eq_refl eq_refl).
Defined.

Lemma split_line_sees_words_only_witness :
  memory_suffices (P := posix)
  /\ exists ta tb s1 s2,
       lsh_split_line "lsh" "ls  -l" (start "" world0) = Ret (argv_of ta) s1
       /\ lsh_split_line "lsh" (String TAB "ls -l ") (start "" world0)
          = Ret (argv_of tb) s2
       /\ (ws_equal "ls  -l" (String TAB "ls -l ") <-> ta = tb).
Proof.
  split; [exact Sessions.toy_memory_suffices|].
  apply (split_line_sees_words_only "lsh" "ls  -l" (String TAB "ls -l ")
           (start "" world0) Sessions.toy_memory_suffices).
Defined.

Lemma blank_line_prompts_again_witness :
  no_lf "  " /\ delims "  " /\ in_int_range (String.length "  ")
  /\ lsh_loop "lsh" 2 (start ("  " ++ nl ++ "exit" ++ nl) world0)
     = lsh_loop "lsh" 1 (mkProc ("exit" ++ nl) "> " "" world0).
Proof.
  assert (R : in_int_range (String.length "  ")) by (vm_compute; discriminate).
  split; [reflexivity|]. split; [reflexivity|]. split; [exact R|].
  apply (blank_line_prompts_again "lsh" 1 ("exit" ++ nl)
           (start ("  " ++ nl ++ "exit" ++ nl) world0)
           Sessions.toy_memory_suffices (line := "  ") eq_refl eq_refl R eq_refl).
Defined.

Lemma main_is_accounted_witness :
  in_int_range (String.length ("doesnotexist123" ++ nl))
  /\ main "lsh" 1 (start ("doesnotexist123" ++ nl) world_child)
     = Exit EXIT_FAILURE
         (mkProc "" "> " ("lsh: No such file or directory" ++ nl)
            (set_errno "No such file or directory" world_child))
  /\ exists s0,
       loop_reaches "lsh" (start ("doesnotexist123" ++ nl) world_child) s0
       /\ "> " = stdout s0 ++ "> ".
Proof.
  assert (R : in_int_range (String.length ("doesnotexist123" ++ nl)))
    by (vm_compute; discriminate).
  assert (E : main "lsh" 1 (start ("doesnotexist123" ++ nl) world_child)
              = Exit EXIT_FAILURE
                  (mkProc "" "> " ("lsh: No such file or directory" ++ nl)
                     (set_errno "No such file or directory" world_child)))
    by (vm_compute; reflexivity).
  split; [exact R|]. split; [exact E|].
  destruct (proj2 (proj2 (main_is_accounted (P := posix) "lsh" 1
                            (start ("doesnotexist123" ++ nl) world_child) R))
              _ _ E) as [s0 [Hreach [Hout _]]].
  exists s0. split; [exact Hreach|exact Hout].
Defined.

Lemma only_exit_returns_zero_witness :
  lsh_execute "lsh" 1 (argv_of ["exit"; "now"]) (start "" world0)
  = Ret 0%Z (start "" world0)
  /\ exists words, ["exit"; "now"] = "exit" :: words.
Proof.
  assert (E : lsh_execute "lsh" 1 (argv_of ["exit"; "now"]) (start "" world0)
              = Ret 0%Z (start "" world0)) by reflexivity.
  split; [exact E|].
  destruct (only_exit_returns_zero (P := posix) "lsh" 1 ["exit"; "now"]
              (start "" world0) E) as [H|[_ [_ H]]]; [discriminate H|exact H].
Defined.

End More_sessions.
